(** * A VLIW list scheduler and its replay executor

    Shallow embedding of [execute.py] (scheduler and executor) and of the
    scheduler variant of [bundle.py], with the properties of the
    specification stated and proved over the embedding.

    Conventions of the embedding:
    - a Python value that is a string or [None] is an [option string];
    - Python integers are [Z]; [//] is [Z.div] (both round towards minus
      infinity);
    - a [dict] is a [gmap], a [set] is a [gset];
    - an exception is a value of [exn], carried by the [result] monad;
    - the [while] loop of the scheduler, which may run for ever, takes a
      fuel argument that bounds the number of its iterations: the result
      [None] means that the fuel ran out. *)

From stdpp Require Import gmap strings list fin_maps.
From Stdlib Require Import ZArith Lia Permutation Sorted.

Local Open Scope Z_scope.
#[local] Set Warnings "-clear-no-such-hyp".

(** ** Data model *)

(** A register name, an input key or an absent operand: [str | None]. *)
Abbreviation pyname := (option string).

(** An instruction is the tuple [(op, dest, src1, src2, size)]. *)
Record instr : Type := Instr {
  op : string;
  dest : pyname;
  src1 : pyname;
  src2 : pyname;
  size : Z
}.

#[global] Instance instr_eq_dec : EqDecision instr.
Proof. solve_decision. Defined.

(** A bundle of the schedule: [(start_cycle, list_of_instructions)]. *)
Abbreviation bundle := (Z * list instr)%type.

(** The exceptions the code can raise. *)
Inductive exn : Type :=
  | KeyError (k : pyname)
  | ValueError (msg : string).

Inductive result (A : Type) : Type :=
  | Ok (a : A)
  | Raise (e : exn).
Arguments Ok {A} a.
Arguments Raise {A} e.

#[global] Instance result_ret : MRet result := λ A a, Ok a.
#[global] Instance result_bind : MBind result := λ A B f m,
  match m with
  | Ok a => f a
  | Raise e => Raise e
  end.

(** ** Operation catalog *)

Definition base_latencies : gmap string Z :=
  list_to_map
    [("ADD", 1); ("SUB", 1); ("MUL", 2); ("MOVE", 3); ("LOAD", 3); ("STORE", 3)].

(** [compute_latency] of [execute.py] and of [bundle.py] (the same text). *)
Definition compute_latency (i : instr) : Z :=
  let base := default 1 (base_latencies !! op i) in
  let extra := size i / 10 in
  base + extra.

(** [max(...)] over a sequence: raises [ValueError] on the empty one. *)
Definition py_max (l : list Z) : result Z :=
  match l with
  | [] => Raise (ValueError "max() arg is an empty sequence")
  | x :: l' => Ok (foldl Z.max x l')
  end.

(** [l.remove(x)]: drops the first element equal to [x], raises
    [ValueError] when there is none. *)
Fixpoint py_remove (x : instr) (l : list instr) : result (list instr) :=
  match l with
  | [] => Raise (ValueError "list.remove(x): x not in list")
  | y :: l' =>
      if decide (x = y) then Ok l'
      else l'' ← py_remove x l'; Ok (y :: l'')
  end.

(** ** Scheduling *)

Section Scheduler.

(** The two files differ in [get_registers] only; the scheduler is
    written once over it. *)
Variable get_regs : instr → pyname * list pyname.

(** First loop: the registers written by a non-STORE instruction. *)
Definition produced (instructions : list instr) : gset pyname :=
  foldl (λ acc i, if decide (op i ≠ "STORE") then acc ∪ {[dest i]} else acc)
        ∅ instructions.

(** Second loop: the sources that no instruction produces. *)
Definition external (instructions : list instr) : gset pyname :=
  let produced := produced instructions in
  foldl (λ acc i,
           foldl (λ acc r, if decide (r ∉ produced) then acc ∪ {[r]} else acc)
                 acc (get_regs i).2)
        ∅ instructions.

(** [{r: 0 for r in external}], the set being visited in the order
    [order]. *)
Definition init_reg_avail (order : list pyname) : gmap pyname Z :=
  foldl (λ m r, <[r := 0]> m) ∅ order.

(** [reg_avail.get(r, float('inf')) > current_cycle] *)
Definition not_yet (reg_avail : gmap pyname Z) (current_cycle : Z)
    (r : pyname) : bool :=
  match reg_avail !! r with
  | Some t => bool_decide (t > current_cycle)
  | None => true
  end.

(** The test of the conflict loop for one instruction [b] of the bundle. *)
Definition conflicts (d : pyname) (srcs : list pyname) (b : instr) : bool :=
  let '(b_dest, b_srcs) := get_regs b in
  bool_decide (b_dest ≠ None ∧ b_dest ∈ srcs)
  || bool_decide (d ≠ None ∧ d = b_dest)
  || bool_decide (d ≠ None ∧ d ∈ b_srcs).

(** The [for instr in unscheduled[:]] loop: [snapshot] is what is left
    of the copy, [current_bundle] and [unscheduled] are the two lists the
    loop changes. *)
Fixpoint fill_bundle (bundle_size : Z) (reg_avail : gmap pyname Z)
    (current_cycle : Z) (snapshot current_bundle unscheduled : list instr)
    : result (list instr * list instr) :=
  match snapshot with
  | [] => Ok (current_bundle, unscheduled)
  | i :: snapshot' =>
      if bool_decide (Z.of_nat (length current_bundle) >= bundle_size)
      then Ok (current_bundle, unscheduled)
      else
        let '(d, srcs) := get_regs i in
        if existsb (not_yet reg_avail current_cycle) srcs
        then fill_bundle bundle_size reg_avail current_cycle
                         snapshot' current_bundle unscheduled
        else if existsb (conflicts d srcs) current_bundle
        then fill_bundle bundle_size reg_avail current_cycle
                         snapshot' current_bundle unscheduled
        else
          unscheduled' ← py_remove i unscheduled;
          fill_bundle bundle_size reg_avail current_cycle
                      snapshot' (current_bundle ++ [i]) unscheduled'
  end.

(** The availability update of a scheduled bundle. *)
Definition update_avail (current_cycle : Z) (reg_avail : gmap pyname Z)
    (current_bundle : list instr) : gmap pyname Z :=
  foldl (λ m i,
           match (get_regs i).1 with
           | Some d => <[Some d := current_cycle + compute_latency i]> m
           | None => m
           end)
        reg_avail current_bundle.

(** The [while unscheduled] loop. *)
Fixpoint sched_loop (fuel : nat) (bundle_size : Z)
    (reg_avail : gmap pyname Z) (unscheduled : list instr)
    (bundles : list bundle) (current_cycle : Z)
    : option (result (list bundle)) :=
  match fuel with
  | O => None
  | S fuel' =>
      match unscheduled with
      | [] => Some (Ok bundles)
      | _ :: _ =>
          match fill_bundle bundle_size reg_avail current_cycle
                            unscheduled [] unscheduled with
          | Raise e => Some (Raise e)
          | Ok ([], unscheduled') =>
              sched_loop fuel' bundle_size reg_avail unscheduled' bundles
                         (current_cycle + 1)
          | Ok (current_bundle, unscheduled') =>
              match py_max (compute_latency <$> current_bundle) with
              | Raise e => Some (Raise e)
              | Ok bundle_latency =>
                  sched_loop fuel' bundle_size
                    (update_avail current_cycle reg_avail current_bundle)
                    unscheduled'
                    (bundles ++ [(current_cycle, current_bundle)])
                    (current_cycle + bundle_latency)
              end
          end
      end
  end.

(** The scheduler, the set [external] being visited in the order
    [order]. *)
Definition schedule_ordered (order : list pyname) (fuel : nat)
    (instructions : list instr) (bundle_size : Z)
    : option (result (list bundle)) :=
  sched_loop fuel bundle_size (init_reg_avail order) instructions [] 0.

Definition schedule_with (fuel : nat) (instructions : list instr)
    (bundle_size : Z) : option (result (list bundle)) :=
  schedule_ordered (elements (external instructions)) fuel
                   instructions bundle_size.

(** *** The vocabulary of the properties *)

(** Register [r] is written, resp. read, by instruction [i], as the
    scheduler sees it through [get_regs]. *)
Definition writes (i : instr) (r : string) : Prop :=
  (get_regs i).1 = Some r.
Definition reads (i : instr) (r : string) : Prop :=
  Some r ∈ (get_regs i).2.

(** No write-after-write, read-after-write or write-after-read hazard
    between two instructions at different positions of a bundle. *)
Definition hazard_free (b : list instr) : Prop :=
  ∀ (j k : nat) (i1 i2 : instr) (r : string),
    j ≠ k → b !! j = Some i1 → b !! k = Some i2 →
    ¬ (writes i1 r ∧ writes i2 r)
    ∧ ¬ (reads i1 r ∧ writes i2 r)
    ∧ ¬ (writes i1 r ∧ reads i2 r).

(** The register dependency graph has no cycle: the registers can be
    ranked so that every instruction writes a register of a higher rank
    than each produced register it reads. *)
Definition acyclic (instructions : list instr) : Prop :=
  ∃ rank : string → nat,
    ∀ (i : instr) (d s : string),
      i ∈ instructions → writes i d → reads i s →
      Some s ∈ produced instructions → (rank s < rank d)%nat.

(** Every operand that is read is external or is the destination of
    some instruction of the program. *)
Definition fully_resolvable (instructions : list instr) : Prop :=
  ∀ (i : instr) (r : pyname),
    i ∈ instructions → r ∈ (get_regs i).2 → r ∈ produced instructions →
    ∃ (j : instr) (d : string),
      j ∈ instructions ∧ writes j d ∧ r = Some d.

(** Instruction [i] has no hazard against any instruction of [cb]. *)
Definition compatible_with (cb : list instr) (i : instr) : Prop :=
  ∀ (b : instr) (r : string), b ∈ cb →
    ¬ (writes b r ∧ writes i r)
    ∧ ¬ (reads b r ∧ writes i r)
    ∧ ¬ (writes b r ∧ reads i r).

(** What the [for] loop keeps true of the bundle it builds. *)
Definition bundle_ok (bundle_size : Z) (cb : list instr) : Prop :=
  (cb = [] ∨ Z.of_nat (length cb) ≤ bundle_size) ∧ hazard_free cb.

(** What the [while] loop keeps true of its state, for the program
    [prog]: the pool holds instructions of the program, every register
    written by an instruction that left the pool has an entry in the
    table, and so has every external operand. *)
Definition sched_inv (prog : list instr) (reg_avail : gmap pyname Z)
    (unscheduled : list instr) : Prop :=
  (∀ i, i ∈ unscheduled → i ∈ prog)
  ∧ (∀ i d, i ∈ prog → i ∉ unscheduled → writes i d →
            is_Some (reg_avail !! Some d))
  ∧ (∀ r, r ∈ external prog → is_Some (reg_avail !! r)).

(** *** Checkers for concrete programs *)

(** The position of [s] in [order] (its length when absent). *)
Fixpoint rank_in (order : list string) (s : string) : nat :=
  match order with
  | [] => 0%nat
  | x :: order' => if decide (x = s) then 0%nat else S (rank_in order' s)
  end.

Definition check_acyclic (rank : string → nat) (instructions : list instr)
    : bool :=
  forallb (λ i,
    match (get_regs i).1 with
    | None => true
    | Some d =>
        forallb (λ r : pyname,
          match r with
          | None => true
          | Some s =>
              bool_decide (Some s ∈ produced instructions →
                           (rank s < rank d)%nat)
          end) (get_regs i).2
    end) instructions.

Definition check_resolvable (instructions : list instr) : bool :=
  forallb (λ i,
    forallb (λ r : pyname,
      bool_decide (r ∈ produced instructions →
                   Exists (λ j, r ≠ None ∧ (get_regs j).1 = r) instructions))
      (get_regs i).2) instructions.

End Scheduler.

(** [get_registers] of [execute.py]. *)
Definition get_registers (i : instr) : pyname * list pyname :=
  if decide (op i = "STORE") then (None, [dest i])
  else (dest i, filter (λ r : pyname, r ≠ None) [src1 i; src2 i]).

(** [schedule_instructions] of [execute.py]. *)
Definition schedule_instructions (fuel : nat) (instructions : list instr)
    (bundle_size : Z) : option (result (list bundle)) :=
  schedule_with get_registers fuel instructions bundle_size.

Module Bundle.

(** [get_registers] of [bundle.py]: no case for STORE. *)
Definition get_registers (i : instr) : pyname * list pyname :=
  (dest i, filter (λ r : pyname, r ≠ None) [src1 i; src2 i]).

(** [schedule_instructions] of [bundle.py]. *)
Definition schedule_instructions (fuel : nat) (instructions : list instr)
    (bundle_size : Z) : option (result (list bundle)) :=
  schedule_with get_registers fuel instructions bundle_size.

(** The example program of [bundle.py]. *)
Definition program : list instr :=
  [ Instr "LOAD" (Some "R1") None None 16;
    Instr "ADD" (Some "R2") (Some "R1") (Some "R3") 1;
    Instr "MOVE" (Some "R4") (Some "R2") None 32;
    Instr "MUL" (Some "R5") (Some "R4") (Some "R6") 1;
    Instr "STORE" (Some "R5") None None 16 ].

End Bundle.

(** ** Execution *)

(** [d[k]] *)
Definition getitem (d : gmap pyname Z) (k : pyname) : result Z :=
  match d !! k with
  | Some v => Ok v
  | None => Raise (KeyError k)
  end.

Definition execute_instruction (i : instr)
    (registers inputs : gmap pyname Z) : result (gmap pyname Z) :=
  if decide (op i = "LOAD") then
    v ← getitem inputs (src1 i);
    Ok (<[dest i := v]> registers)
  else if decide (op i = "STORE") then
    v ← getitem registers (dest i);
    Ok (<[Some "OUTPUT" := v]> registers)
  else if decide (op i = "ADD") then
    a ← getitem registers (src1 i);
    b ← getitem registers (src2 i);
    Ok (<[dest i := a + b]> registers)
  else if decide (op i = "SUB") then
    a ← getitem registers (src1 i);
    b ← getitem registers (src2 i);
    Ok (<[dest i := a - b]> registers)
  else if decide (op i = "MUL") then
    a ← getitem registers (src1 i);
    b ← getitem registers (src2 i);
    Ok (<[dest i := a * b]> registers)
  else if decide (op i = "MOVE") then
    v ← getitem registers (src1 i);
    Ok (<[dest i := v]> registers)
  else Raise (ValueError ("Unknown operation: " +:+ op i)).

(** The [for instr in bundle] loop of both runners. *)
Fixpoint exec_bundle (instrs : list instr)
    (registers inputs : gmap pyname Z) : result (gmap pyname Z) :=
  match instrs with
  | [] => Ok registers
  | i :: instrs' =>
      registers' ← execute_instruction i registers inputs;
      exec_bundle instrs' registers' inputs
  end.

(** The [for cycle, bundle in bundles] loop of [run_bundle]. *)
Fixpoint run_bundle_loop (bundles : list bundle) (inputs : gmap pyname Z)
    (registers : gmap pyname Z) (current_cycle : Z)
    : result (gmap pyname Z * Z) :=
  match bundles with
  | [] => Ok (registers, current_cycle)
  | (cycle, instrs) :: bundles' =>
      let current_cycle :=
        if bool_decide (current_cycle < cycle) then cycle else current_cycle in
      registers' ← exec_bundle instrs registers inputs;
      bundle_latency ← py_max (compute_latency <$> instrs);
      run_bundle_loop bundles' inputs registers' (current_cycle + bundle_latency)
  end.

Definition run_bundle (bundles : list bundle) (inputs : gmap pyname Z)
    : result (option Z) :=
  st ← run_bundle_loop bundles inputs ∅ 0;
  Ok (st.1 !! Some "OUTPUT").

(** The execution loop of [run_program], a second copy of the loop of
    [run_bundle] in the source. *)
Fixpoint run_program_loop (bundles : list bundle) (inputs : gmap pyname Z)
    (registers : gmap pyname Z) (current_cycle : Z)
    : result (gmap pyname Z * Z) :=
  match bundles with
  | [] => Ok (registers, current_cycle)
  | (cycle, instrs) :: bundles' =>
      let current_cycle :=
        if bool_decide (current_cycle < cycle) then cycle else current_cycle in
      match exec_bundle instrs registers inputs with
      | Raise e => Raise e
      | Ok registers' =>
          match py_max (compute_latency <$> instrs) with
          | Raise e => Raise e
          | Ok bundle_latency =>
              run_program_loop bundles' inputs registers'
                               (current_cycle + bundle_latency)
          end
      end
  end.

(** [run_program]: [None] when the scheduler runs out of fuel. The loop
    that prints the schedule has no effect on the result. *)
Definition run_program (fuel : nat) (instructions : list instr)
    (inputs : gmap pyname Z) (bundle_size : Z)
    : option (result (option Z)) :=
  match schedule_instructions fuel instructions bundle_size with
  | None => None
  | Some (Raise e) => Some (Raise e)
  | Some (Ok bundles) =>
      Some (match run_program_loop bundles inputs ∅ 0 with
            | Raise e => Raise e
            | Ok (registers, _) => Ok (registers !! Some "OUTPUT")
            end)
  end.

(** The example program of [execute.py] and its inputs. *)
Definition program : list instr :=
  [ Instr "LOAD" (Some "R1") (Some "input0") None 16;
    Instr "LOAD" (Some "R2") (Some "input1") None 16;
    Instr "ADD" (Some "R3") (Some "R1") (Some "R2") 1;
    Instr "LOAD" (Some "R4") (Some "input2") None 16;
    Instr "MUL" (Some "R5") (Some "R3") (Some "R4") 1;
    Instr "STORE" (Some "R5") None None 1 ].

Definition inputs : gmap pyname Z :=
  <[Some "input2" := 10]> (<[Some "input1" := 5]> (<[Some "input0" := 3]> ∅)).

(** ** The vocabulary of the properties of the executor *)

(** The six operation kinds with an execution rule. *)
Definition defined_kinds : list string :=
  ["LOAD"; "STORE"; "ADD"; "SUB"; "MUL"; "MOVE"].

(** The registers [execute_instruction] looks up in the register file. *)
Definition exec_reads (i : instr) : list pyname :=
  if decide (op i = "STORE") then [dest i]
  else if decide (op i ∈ ["ADD"; "SUB"; "MUL"]) then [src1 i; src2 i]
  else if decide (op i = "MOVE") then [src1 i]
  else [].

(** The three failure conditions of the executor. *)
Definition missing_input (i : instr) (inputs : gmap pyname Z) : Prop :=
  op i = "LOAD" ∧ inputs !! src1 i = None.
Definition unwritten_read (i : instr) (registers : gmap pyname Z) : Prop :=
  ∃ r, r ∈ exec_reads i ∧ registers !! r = None.
Definition undefined_kind (i : instr) : Prop :=
  op i ∉ defined_kinds.

(** The instruction sequence of a schedule. *)
Definition flatten (bundles : list bundle) : list instr :=
  concat (snd <$> bundles).

(** The instruction of the divergence example: it reads [R2], which
    nothing produces and nobody supplies, and [R1], which it writes. *)
Definition self_reading : instr :=
  Instr "ADD" (Some "R1") (Some "R1") (Some "R2") 1.

(** A LOAD with a second operand that nothing produces or supplies. *)
Definition load_with_spare_operand : instr :=
  Instr "LOAD" (Some "R1") (Some "input0") (Some "R7") 16.

(** An instruction of a kind that [execute.py] does not execute. *)
Definition undefined_div : instr :=
  Instr "DIV" (Some "R1") (Some "R8") (Some "R9") 1.

(** The schedule of [program] for a bundle width of 2. *)
Definition program_schedule : list bundle :=
  [ (0, [ Instr "LOAD" (Some "R1") (Some "input0") None 16;
          Instr "LOAD" (Some "R2") (Some "input1") None 16 ]);
    (4, [ Instr "ADD" (Some "R3") (Some "R1") (Some "R2") 1;
          Instr "LOAD" (Some "R4") (Some "input2") None 16 ]);
    (8, [ Instr "MUL" (Some "R5") (Some "R3") (Some "R4") 1 ]);
    (10, [ Instr "STORE" (Some "R5") None None 1 ]) ].

(** The STORE of the example program of [bundle.py]. *)
Definition store_R5 : instr := Instr "STORE" (Some "R5") None None 16.

(** A LOAD whose key is not among [inputs]. *)
Definition load_missing : instr :=
  Instr "LOAD" (Some "R1") (Some "input9") None 16.

(** A one-instruction program, to be scheduled with a width of zero. *)
Definition single_load : list instr :=
  [ Instr "LOAD" (Some "R1") (Some "input0") None 16 ].

(** A program with a negative size: the latency of its first instruction
    is [1 + (-20) // 10 = -1]. *)
Definition negative_size_program : list instr :=
  [ Instr "ADD" (Some "R1") (Some "a") (Some "b") (-20);
    Instr "MOVE" (Some "R2") (Some "R1") None 1 ].

(** ** The vocabulary of further properties *)

(** Every instruction of bundle [b1] has completed (start cycle plus
    latency) when bundle [b2] starts. *)
Definition completes_before (b1 b2 : bundle) : Prop :=
  ∀ i, i ∈ b1.2 → b1.1 + compute_latency i ≤ b2.1.

(** Operand [r] is valid at cycle [c] for an instruction of the bundle
    at position [k] of the schedule [bs] of the program [prog]: it is an
    external register, valid from cycle 0, or an instruction of an earlier
    bundle writes it and has completed by cycle [c]. *)
Definition supplied (get_regs : instr → pyname * list pyname)
    (prog : list instr) (bs : list bundle) (k : nat) (c : Z) (r : pyname)
    : Prop :=
  (r ∈ external get_regs prog ∧ 0 ≤ c)
  ∨ ∃ (k' : nat) (c' : Z) (b' : list instr) (j : instr) (d : string),
      (k' < k)%nat ∧ bs !! k' = Some (c', b') ∧ j ∈ b' ∧ r = Some d
      ∧ writes get_regs j d ∧ c' + compute_latency j ≤ c.

(** What the [while] loop keeps true of the entries of the table: an
    entry is the initial 0 of an external register, or the completion
    cycle of an instruction of a bundle already issued. *)
Definition entries_justified (get_regs : instr → pyname * list pyname)
    (prog : list instr) (bs : list bundle) (reg_avail : gmap pyname Z)
    : Prop :=
  ∀ (r : pyname) (t : Z), reg_avail !! r = Some t →
    (r ∈ external get_regs prog ∧ t = 0)
    ∨ ∃ (k' : nat) (c' : Z) (b' : list instr) (j : instr) (d : string),
        bs !! k' = Some (c', b') ∧ j ∈ b' ∧ r = Some d
        ∧ writes get_regs j d ∧ t = c' + compute_latency j.

(** The register [execute_instruction] writes. *)
Definition write_key (i : instr) : pyname :=
  if decide (op i = "STORE") then Some "OUTPUT" else dest i.

(** Every register read by an instruction of the bundle at position [k]
    of [bs] is defined in [registers] or written by an instruction of an
    earlier bundle of [bs]. *)
Definition defined_before_use (registers : gmap pyname Z)
    (bs : list bundle) : Prop :=
  ∀ (k : nat) (c : Z) (b : list instr) (i : instr) (r : pyname),
    bs !! k = Some (c, b) → i ∈ b → r ∈ exec_reads i →
    is_Some (registers !! r)
    ∨ ∃ (k' : nat) (c' : Z) (b' : list instr) (j : instr),
        (k' < k)%nat ∧ bs !! k' = Some (c', b') ∧ j ∈ b' ∧ write_key j = r.

(** Instruction [i] runs without failure from some register file below
    [final], and gives a register file below [final]. *)
Definition runs_below (inputs final : gmap pyname Z) (i : instr) : Prop :=
  ∃ registers registers' : gmap pyname Z,
    registers ⊆ final ∧ registers' ⊆ final
    ∧ execute_instruction i registers inputs = Ok registers'.

(** The register file after the instructions of [program] have run in
    program order on [inputs]. *)
Definition program_final : gmap pyname Z :=
  match exec_bundle program ∅ inputs with
  | Ok registers => registers
  | Raise _ => ∅
  end.

(** Two instructions that wait for each other. *)
Definition cyclic_pair : list instr :=
  [ Instr "MOVE" (Some "A") (Some "B") None 1;
    Instr "MOVE" (Some "B") (Some "A") None 1 ].

(** The schedule of [program] for a bundle width of 1. *)
Definition program_schedule_1 : list bundle :=
  [ (0, [ Instr "LOAD" (Some "R1") (Some "input0") None 16 ]);
    (4, [ Instr "LOAD" (Some "R2") (Some "input1") None 16 ]);
    (8, [ Instr "ADD" (Some "R3") (Some "R1") (Some "R2") 1 ]);
    (9, [ Instr "LOAD" (Some "R4") (Some "input2") None 16 ]);
    (13, [ Instr "MUL" (Some "R5") (Some "R3") (Some "R4") 1 ]);
    (15, [ Instr "STORE" (Some "R5") None None 1 ]) ].

(** The position in [l] of the first instruction that writes register
    [s] (the length of [l] when there is none). *)
Fixpoint first_writer (l : list instr) (s : string) : nat :=
  match l with
  | [] => 0%nat
  | i :: l' =>
      if decide (write_key i = Some s) then 0%nat else S (first_writer l' s)
  end.

(** The example program of [execute.py] without its STORE. *)
Definition program_without_store : list instr :=
  [ Instr "LOAD" (Some "R1") (Some "input0") None 16;
    Instr "LOAD" (Some "R2") (Some "input1") None 16;
    Instr "ADD" (Some "R3") (Some "R1") (Some "R2") 1;
    Instr "LOAD" (Some "R4") (Some "input2") None 16;
    Instr "MUL" (Some "R5") (Some "R3") (Some "R4") 1 ].

(** The schedule that [bundle.py] gives its example program for a
    bundle width of 2. *)
Definition bundle_py_schedule : list bundle :=
  [ (0, [ Instr "LOAD" (Some "R1") None None 16;
          Instr "STORE" (Some "R5") None None 16 ]);
    (4, [ Instr "ADD" (Some "R2") (Some "R1") (Some "R3") 1 ]);
    (5, [ Instr "MOVE" (Some "R4") (Some "R2") None 32 ]);
    (11, [ Instr "MUL" (Some "R5") (Some "R4") (Some "R6") 1 ]) ].

(** ** Properties of the scheduler *)

Section SchedulerFacts.

Variable get_regs : instr → pyname * list pyname.

Lemma py_remove_perm (x : instr) (l l' : list instr) :
  py_remove x l = Ok l' → l ≡ₚ x :: l'.
Proof.
  revert l'. induction l as [|y l IH]; intros l' H; simpl in H; [done|].
  destruct (decide (x = y)) as [->|Hne].
  - by inversion H.
  - destruct (py_remove x l) as [l''|e] eqn:E; simpl in H; [|done].
    inversion H; subst. rewrite (IH l'' eq_refl). apply perm_swap.
Qed.

Lemma py_remove_elem (x : instr) (l : list instr) :
  x ∈ l → ∃ l', py_remove x l = Ok l'.
Proof.
  induction l as [|y l IH]; intros H; [by apply elem_of_nil in H|].
  simpl. destruct (decide (x = y)) as [->|Hne]; [eauto|].
  apply elem_of_cons in H as [?|H]; [done|].
  destruct (IH H) as [l' ->]. simpl. eauto.
Qed.

(** No conflict was found against any instruction of the bundle. *)
Lemma conflicts_false (i b : instr) (r : string) :
  conflicts get_regs (get_regs i).1 (get_regs i).2 b = false →
  ¬ (writes get_regs b r ∧ writes get_regs i r)
  ∧ ¬ (reads get_regs b r ∧ writes get_regs i r)
  ∧ ¬ (writes get_regs b r ∧ reads get_regs i r).
Proof.
  unfold conflicts, writes, reads.
  destruct (get_regs b) as [bd bs]; destruct (get_regs i) as [d ss]; simpl.
  rewrite !orb_false_iff, !bool_decide_eq_false.
  intros [[H1 H2] H3]. repeat split.
  - intros [-> ->]. by apply H2.
  - intros [Hr ->]. by apply H3.
  - intros [-> Hr]. by apply H1.
Qed.

Lemma hazard_free_nil : hazard_free get_regs [].
Proof. intros j k i1 i2 r _ H. by rewrite lookup_nil in H. Qed.

Lemma hazard_free_snoc (cb : list instr) (i : instr) :
  hazard_free get_regs cb → compatible_with get_regs cb i →
  hazard_free get_regs (cb ++ [i]).
Proof.
  intros Hcb Hi j k i1 i2 r Hjk H1 H2.
  apply lookup_snoc_Some in H1 as [[Hj H1]|[Hj <-]];
    apply lookup_snoc_Some in H2 as [[Hk H2]|[Hk <-]].
  - by apply (Hcb j k).
  - apply Hi. by eapply list_elem_of_lookup_2.
  - destruct (Hi i2 r) as (A & B & C); [by eapply list_elem_of_lookup_2|].
    repeat split; tauto.
  - lia.
Qed.

Lemma fill_bundle_ok bundle_size reg_avail cycle snapshot cb un cb' un' :
  bundle_ok get_regs bundle_size cb →
  fill_bundle get_regs bundle_size reg_avail cycle snapshot cb un
    = Ok (cb', un') →
  bundle_ok get_regs bundle_size cb'.
Proof.
  revert cb un. induction snapshot as [|i s IH]; intros cb un Hok H; simpl in H.
  { by inversion H; subst. }
  case_bool_decide as Hfull; [by inversion H; subst|].
  destruct (get_regs i) as [d srcs] eqn:Ei.
  destruct (existsb _ srcs); [by eapply IH|].
  destruct (existsb _ cb) eqn:Ec; [by eapply IH|].
  destruct (py_remove i un) as [un1|e]; simpl in H; [|done].
  eapply IH; [|exact H]. destruct Hok as [Hlen Hhz]. split.
  - right. rewrite length_app. simpl. lia.
  - apply hazard_free_snoc; [done|]. intros b r Hb.
    apply conflicts_false. rewrite Ei. simpl.
    destruct (conflicts get_regs d srcs b) eqn:Eb; [|done].
    assert (existsb (conflicts get_regs d srcs) cb = true) as Habs; [|congruence].
    apply existsb_exists. exists b. split; [by apply list_elem_of_In|done].
Qed.

Lemma sched_loop_bundles_ok fuel bundle_size reg_avail un bundles cycle bs :
  Forall (λ b : bundle, Z.of_nat (length b.2) ≤ bundle_size
                        ∧ hazard_free get_regs b.2) bundles →
  sched_loop get_regs fuel bundle_size reg_avail un bundles cycle
    = Some (Ok bs) →
  Forall (λ b : bundle, Z.of_nat (length b.2) ≤ bundle_size
                        ∧ hazard_free get_regs b.2) bs.
Proof.
  revert reg_avail un bundles cycle.
  induction fuel as [|fuel IH]; intros ra un bundles cycle Hb H; simpl in H; [done|].
  destruct un as [|i0 un0]; [by inversion H; subst|].
  destruct (fill_bundle _ _ _ _ _ _ _) as [[cb un']|e] eqn:Ef; [|done].
  apply fill_bundle_ok in Ef; [|split; [by left|apply hazard_free_nil]].
  destruct cb as [|c0 cb0]; [by eapply IH|].
  destruct (py_max _) as [bl|e]; [|done].
  eapply IH; [|exact H]. apply Forall_app. split; [done|].
  apply Forall_singleton. simpl. destruct Ef as [[?|?] ?]; [done|by split].
Qed.


(** *** The sets of the pre-processing *)

Lemma elem_of_produced (l : list instr) (r : pyname) :
  r ∈ produced l ↔ ∃ i, i ∈ l ∧ op i ≠ "STORE" ∧ dest i = r.
Proof.
  unfold produced.
  assert (∀ acc : gset pyname,
    r ∈ foldl (λ acc i, if decide (op i ≠ "STORE") then acc ∪ {[dest i]} else acc)
              acc l
    ↔ r ∈ acc ∨ ∃ i, i ∈ l ∧ op i ≠ "STORE" ∧ dest i = r) as H.
  { induction l as [|i l IH]; intros acc; simpl.
    - split; [by left|]. intros [?|(i & Hi & _)]; [done|].
      by apply elem_of_nil in Hi.
    - rewrite IH. split.
      + intros [Hacc|(j & Hj & ? & ?)].
        * destruct (decide (op i ≠ "STORE")); [|by left].
          apply elem_of_union in Hacc as [?|Hd]; [by left|].
          apply elem_of_singleton in Hd. right. exists i.
          split; [left|done].
        * right. exists j. split; [by right|done].
      + intros [Hacc|(j & Hj & Hop & Hd)].
        * left. destruct (decide (op i ≠ "STORE")); [|done].
          apply elem_of_union. by left.
        * apply elem_of_cons in Hj as [->|Hj].
          -- left. rewrite decide_True by done.
             apply elem_of_union. right. by apply elem_of_singleton.
          -- right. eauto. }
  rewrite H. split; [|by right]. intros [Hr|?]; [|done].
  by apply not_elem_of_empty in Hr.
Qed.

Lemma elem_of_external (l : list instr) (r : pyname) :
  r ∈ external get_regs l
  ↔ ∃ i, i ∈ l ∧ r ∈ (get_regs i).2 ∧ r ∉ produced l.
Proof.
  unfold external. generalize (produced l) as P. intros P.
  assert (∀ (srcs : list pyname) (acc : gset pyname),
    r ∈ foldl (λ acc r, if decide (r ∉ P) then acc ∪ {[r]} else acc) acc srcs
    ↔ r ∈ acc ∨ (r ∈ srcs ∧ r ∉ P)) as Hin.
  { induction srcs as [|x srcs IH]; intros acc; simpl.
    - split; [by left|]. intros [?|[Hx _]]; [done|].
      by apply elem_of_nil in Hx.
    - rewrite IH. rewrite elem_of_cons.
      destruct (decide (x ∉ P)) as [Hx|Hx].
      + rewrite elem_of_union, elem_of_singleton. naive_solver.
      + naive_solver. }
  assert (∀ (l' : list instr) (acc : gset pyname),
    r ∈ foldl (λ acc i,
                 foldl (λ acc r, if decide (r ∉ P) then acc ∪ {[r]} else acc)
                       acc (get_regs i).2) acc l'
    ↔ r ∈ acc ∨ ∃ i, i ∈ l' ∧ r ∈ (get_regs i).2 ∧ r ∉ P) as H.
  { induction l' as [|i l' IH]; intros acc; simpl.
    - split; [by left|]. intros [?|(i & Hi & _)]; [done|].
      by apply elem_of_nil in Hi.
    - rewrite IH, Hin. split.
      + intros [[?|[? ?]]|(j & Hj & ? & ?)]; [by left| |].
        * right. exists i. split; [left|done].
        * right. exists j. split; [by right|done].
      + intros [?|(j & Hj & Hr & HP)]; [by left; left|].
        apply elem_of_cons in Hj as [->|Hj]; [by left; right|].
        right. eauto. }
  rewrite H. split; [|by right]. intros [Hr|?]; [|done].
  by apply not_elem_of_empty in Hr.
Qed.

Lemma init_reg_avail_lookup (order : list pyname) (r : pyname) :
  init_reg_avail order !! r = if decide (r ∈ order) then Some 0 else None.
Proof.
  unfold init_reg_avail.
  assert (∀ m : gmap pyname Z,
    foldl (λ m r, <[r := 0]> m) m order !! r
    = if decide (r ∈ order) then Some 0 else m !! r) as H.
  { induction order as [|x order IH]; intros m.
    - cbn [foldl]. destruct (decide (r ∈ [])) as [Hin|_]; [|done].
      by apply elem_of_nil in Hin.
    - cbn [foldl]. rewrite IH.
      destruct (decide (r ∈ order)) as [Hin|Hnin].
      + rewrite decide_True; [done|]. by right.
      + destruct (decide (x = r)) as [->|Hne].
        * rewrite lookup_insert_eq. rewrite decide_True; [done|]. left.
        * rewrite lookup_insert_ne by done. rewrite decide_False; [done|].
          intros Hc. apply elem_of_cons in Hc as [?|?]; by subst. }
  by rewrite H.
Qed.

(** The initial table does not depend on the order in which the set is
    visited. *)
Lemma init_reg_avail_perm (order1 order2 : list pyname) :
  order1 ≡ₚ order2 → init_reg_avail order1 = init_reg_avail order2.
Proof.
  intros Hp. apply map_eq. intros r. rewrite !init_reg_avail_lookup.
  destruct (decide (r ∈ order1)) as [H1|H1];
    destruct (decide (r ∈ order2)) as [H2|H2]; try done.
  - by rewrite Hp in H1.
  - by rewrite <- Hp in H2.
Qed.

(** *** The [for] loop *)

Lemma fill_bundle_perm bundle_size reg_avail cycle snapshot cb un cb' un' :
  fill_bundle get_regs bundle_size reg_avail cycle snapshot cb un
    = Ok (cb', un') →
  cb' ++ un' ≡ₚ cb ++ un.
Proof.
  revert cb un. induction snapshot as [|i s IH]; intros cb un H; simpl in H.
  { by inversion H; subst. }
  case_bool_decide; [by inversion H; subst|].
  destruct (get_regs i) as [d srcs].
  destruct (existsb _ srcs); [by apply IH|].
  destruct (existsb _ cb); [by apply IH|].
  destruct (py_remove i un) as [un1|e] eqn:Er; simpl in H; [|done].
  rewrite (IH _ _ H). apply py_remove_perm in Er. rewrite Er.
  rewrite <- app_assoc. simpl. done.
Qed.

Lemma fill_bundle_total bundle_size reg_avail cycle snapshot cb un :
  snapshot ⊆+ un →
  ∃ cb' un', fill_bundle get_regs bundle_size reg_avail cycle snapshot cb un
             = Ok (cb', un').
Proof.
  revert cb un. induction snapshot as [|i s IH]; intros cb un Hsub; simpl.
  { eauto. }
  case_bool_decide; [eauto|].
  assert (s ⊆+ un) as Hs.
  { etrans; [|exact Hsub]. by apply submseteq_cons. }
  destruct (get_regs i) as [d srcs].
  destruct (existsb _ srcs); [by apply IH|].
  destruct (existsb _ cb); [by apply IH|].
  destruct (py_remove_elem i un) as [un1 Er].
  { eapply elem_of_submseteq; [|exact Hsub]. left. }
  rewrite Er. simpl. apply IH.
  apply py_remove_perm in Er. rewrite Er in Hsub.
  by apply (submseteq_app_inv_l _ _ [i]).
Qed.


(** The loop only appends to the bundle. *)
Lemma fill_bundle_prefix bundle_size reg_avail cycle snapshot cb un cb' un' :
  fill_bundle get_regs bundle_size reg_avail cycle snapshot cb un
    = Ok (cb', un') →
  ∃ k, cb' = cb ++ k.
Proof.
  revert cb un. induction snapshot as [|i s IH]; intros cb un H; simpl in H.
  { inversion H; subst. exists []. by rewrite app_nil_r. }
  case_bool_decide.
  { inversion H; subst. exists []. by rewrite app_nil_r. }
  destruct (get_regs i) as [d srcs].
  destruct (existsb _ srcs); [by eapply IH|].
  destruct (existsb _ cb); [by eapply IH|].
  destruct (py_remove i un) as [un1|e]; simpl in H; [|done].
  destruct (IH _ _ H) as [k ->]. exists (i :: k). by rewrite <- app_assoc.
Qed.

(** An instruction of the pool whose operands are all available is
    admitted into an empty bundle of positive width: the scan does not
    come back empty-handed. *)
Lemma fill_bundle_progress bundle_size reg_avail cycle snapshot un cb' un' j :
  0 < bundle_size →
  j ∈ snapshot →
  (∀ r, r ∈ (get_regs j).2 → not_yet reg_avail cycle r = false) →
  fill_bundle get_regs bundle_size reg_avail cycle snapshot [] un
    = Ok (cb', un') →
  cb' ≠ [].
Proof.
  intros HW Hj Hready. revert un.
  induction snapshot as [|i s IH]; intros un H; [by apply elem_of_nil in Hj|].
  simpl in H. case_bool_decide as Hfull; [simpl in Hfull; lia|].
  destruct (get_regs i) as [d srcs] eqn:Ei.
  destruct (existsb _ srcs) eqn:Es.
  - apply elem_of_cons in Hj as [->|Hj]; [|by eapply IH].
    apply existsb_exists in Es as (r & Hr & Hn).
    rewrite Hready in Hn; [done|]. rewrite Ei. by apply list_elem_of_In.
  - simpl in H. destruct (py_remove i un) as [un1|e]; simpl in H; [|done].
    apply fill_bundle_prefix in H as [k ->]. done.
Qed.

(** *** The availability table *)

Lemma update_avail_keeps cycle reg_avail cb (r : pyname) :
  is_Some (reg_avail !! r) →
  is_Some (update_avail get_regs cycle reg_avail cb !! r).
Proof.
  unfold update_avail. revert reg_avail.
  induction cb as [|i cb IH]; intros ra Hr; simpl; [done|].
  apply IH. destruct (get_regs i).1 as [d|]; [|done].
  rewrite lookup_insert. by case_decide.
Qed.

Lemma update_avail_writes cycle reg_avail cb (i : instr) (d : string) :
  i ∈ cb → writes get_regs i d →
  is_Some (update_avail get_regs cycle reg_avail cb !! Some d).
Proof.
  unfold update_avail, writes. revert reg_avail.
  induction cb as [|b cb IH]; intros ra Hi Hw; [by apply elem_of_nil in Hi|].
  simpl. apply elem_of_cons in Hi as [->|Hi]; [|by apply IH].
  rewrite Hw. apply update_avail_keeps. by rewrite lookup_insert_eq.
Qed.

(** A scheduled STORE of [execute.py] style ([get_regs] gives it no
    destination) leaves the table as it is. *)
Lemma update_avail_no_dest cycle reg_avail (i : instr) :
  (get_regs i).1 = None →
  update_avail get_regs cycle reg_avail [i] = reg_avail.
Proof. unfold update_avail. simpl. by intros ->. Qed.

(** *** The [while] loop: fuel *)

Lemma sched_loop_fuel_S fuel bundle_size reg_avail un bundles cycle r :
  sched_loop get_regs fuel bundle_size reg_avail un bundles cycle = Some r →
  sched_loop get_regs (S fuel) bundle_size reg_avail un bundles cycle = Some r.
Proof.
  revert reg_avail un bundles cycle.
  induction fuel as [|fuel IH]; intros ra un bundles cycle H; [done|].
  cbn [sched_loop] in H |- *.
  destruct un as [|i0 un0]; [done|].
  destruct (fill_bundle _ _ _ _ _ _ _) as [[cb un']|e]; [|done].
  destruct cb as [|c0 cb0]; [by apply IH|].
  destruct (py_max _) as [bl|e]; [|done]. by apply IH.
Qed.

Lemma sched_loop_fuel_mono fuel fuel' bundle_size reg_avail un bundles cycle r :
  (fuel ≤ fuel')%nat →
  sched_loop get_regs fuel bundle_size reg_avail un bundles cycle = Some r →
  sched_loop get_regs fuel' bundle_size reg_avail un bundles cycle = Some r.
Proof.
  induction 1 as [|fuel' _ IH]; [done|].
  intros H. by apply sched_loop_fuel_S, IH.
Qed.

(** The result does not depend on the fuel, once there is enough of it. *)
Lemma sched_loop_fuel_agree fuel1 fuel2 bundle_size reg_avail un bundles cycle
    r1 r2 :
  sched_loop get_regs fuel1 bundle_size reg_avail un bundles cycle = Some r1 →
  sched_loop get_regs fuel2 bundle_size reg_avail un bundles cycle = Some r2 →
  r1 = r2.
Proof.
  intros H1 H2.
  apply (sched_loop_fuel_mono _ (fuel1 `max` fuel2)%nat) in H1; [|lia].
  apply (sched_loop_fuel_mono _ (fuel1 `max` fuel2)%nat) in H2; [|lia].
  congruence.
Qed.

(** *** The [while] loop: what a returned schedule contains *)

Lemma sched_loop_perm fuel bundle_size reg_avail un bundles cycle bs :
  sched_loop get_regs fuel bundle_size reg_avail un bundles cycle
    = Some (Ok bs) →
  concat (snd <$> bs) ≡ₚ concat (snd <$> bundles) ++ un.
Proof.
  revert reg_avail un bundles cycle.
  induction fuel as [|fuel IH]; intros ra un bundles cycle H; [done|].
  cbn [sched_loop] in H.
  destruct un as [|i0 un0].
  { inversion H; subst. by rewrite app_nil_r. }
  destruct (fill_bundle _ _ _ _ _ _ _) as [[cb un']|e] eqn:Ef; [|done].
  apply fill_bundle_perm in Ef. simpl in Ef.
  destruct cb as [|c0 cb0].
  { rewrite (IH _ _ _ _ H). simpl in Ef. by rewrite Ef. }
  destruct (py_max _) as [bl|e]; [|done].
  rewrite (IH _ _ _ _ H). rewrite fmap_app, concat_app. simpl.
  rewrite app_nil_r, <- app_assoc. by rewrite <- Ef.
Qed.

Lemma foldl_max_le (x : Z) (l : list Z) : x ≤ foldl Z.max x l.
Proof.
  revert x. induction l as [|y l IH]; intros x; simpl; [lia|].
  etrans; [|apply IH]. lia.
Qed.

Lemma py_max_head (x : Z) (l : list Z) (m : Z) :
  py_max (x :: l) = Ok m → x ≤ m.
Proof. simpl. intros [= <-]. apply foldl_max_le. Qed.

Lemma StronglySorted_snoc (l : list Z) (c : Z) :
  StronglySorted Z.le l → Forall (λ x, x ≤ c) l →
  StronglySorted Z.le (l ++ [c]).
Proof.
  induction 1 as [|x l Hs IH Hx]; intros Hc; simpl.
  - repeat constructor.
  - apply Forall_cons in Hc as [Hxc Hc]. constructor; [by apply IH|].
    apply Forall_app. split; [done|]. by apply Forall_singleton.
Qed.

Lemma sched_loop_sorted fuel bundle_size reg_avail un bundles cycle bs :
  (∀ i, i ∈ un → 0 ≤ compute_latency i) →
  StronglySorted Z.le (fst <$> bundles) →
  Forall (λ x, x ≤ cycle) (fst <$> bundles) →
  sched_loop get_regs fuel bundle_size reg_avail un bundles cycle
    = Some (Ok bs) →
  StronglySorted Z.le (fst <$> bs).
Proof.
  revert reg_avail un bundles cycle.
  induction fuel as [|fuel IH]; intros ra un bundles cycle Hlat Hs Hle H; [done|].
  cbn [sched_loop] in H.
  destruct un as [|i0 un0]; [by inversion H; subst|].
  destruct (fill_bundle _ _ _ _ _ _ _) as [[cb un']|e] eqn:Ef; [|done].
  apply fill_bundle_perm in Ef. simpl in Ef.
  assert (∀ i, i ∈ cb ++ un' → 0 ≤ compute_latency i) as Hlat'.
  { intros i Hi. apply Hlat. by rewrite <- Ef. }
  destruct cb as [|c0 cb0].
  { eapply IH; [| |  |exact H]; [done|done|].
    eapply Forall_impl; [exact Hle|]. simpl. intros; lia. }
  destruct (py_max _) as [bl|e] eqn:Em; [|done].
  assert (0 ≤ bl) as Hbl.
  { rewrite fmap_cons in Em. apply py_max_head in Em.
    etrans; [|exact Em]. apply Hlat'. left. }
  eapply IH; [| | |exact H].
  - intros i Hi. apply Hlat'. apply elem_of_app. by right.
  - rewrite fmap_app. simpl. by apply StronglySorted_snoc.
  - rewrite fmap_app. apply Forall_app. split.
    + eapply Forall_impl; [exact Hle|]. simpl. intros; lia.
    + apply Forall_singleton. simpl. lia.
Qed.


(** *** The [while] loop: termination *)

Lemma not_yet_mono reg_avail (c c' : Z) (r : pyname) :
  c ≤ c' → not_yet reg_avail c r = false → not_yet reg_avail c' r = false.
Proof.
  unfold not_yet. destruct (reg_avail !! r) as [t|]; [|done].
  rewrite !bool_decide_eq_false. lia.
Qed.

(** Operands that all have an entry are all available after a number
    of stall cycles. *)
Lemma keyed_ready_later reg_avail (srcs : list pyname) (c : Z) :
  Forall (λ r, is_Some (reg_avail !! r)) srcs →
  ∃ m : nat, ∀ r, r ∈ srcs → not_yet reg_avail (c + Z.of_nat m) r = false.
Proof.
  induction 1 as [|r srcs [t Ht] _ [m IH]].
  - exists 0%nat. intros r Hr. by apply elem_of_nil in Hr.
  - exists (m `max` Z.to_nat (t - c))%nat. intros r' Hr'.
    apply elem_of_cons in Hr' as [->|Hr'].
    + unfold not_yet. rewrite Ht. apply bool_decide_eq_false. lia.
    + eapply not_yet_mono; [|by apply IH]. lia.
Qed.

Lemma sched_inv_init (prog : list instr) :
  sched_inv get_regs prog
    (init_reg_avail (elements (external get_regs prog))) prog.
Proof.
  split; [done|]. split; [done|].
  intros r Hr. rewrite init_reg_avail_lookup.
  rewrite decide_True; [by eexists|]. by apply elem_of_elements.
Qed.

Lemma sched_inv_issue prog reg_avail un cb un' (c : Z) :
  sched_inv get_regs prog reg_avail un →
  cb ++ un' ≡ₚ un →
  sched_inv get_regs prog (update_avail get_regs c reg_avail cb) un'.
Proof.
  intros (Hsub & Hw & Hext) Hp. split; [|split].
  - intros i Hi. apply Hsub. rewrite <- Hp. apply elem_of_app. by right.
  - intros i d Hi Hni Hwr.
    destruct (decide (i ∈ un)) as [Hin|Hnin].
    + rewrite <- Hp in Hin. apply elem_of_app in Hin as [Hin|Hin]; [|done].
      by eapply update_avail_writes.
    + by eapply update_avail_keeps, Hw.
  - intros r Hr. by apply update_avail_keeps, Hext.
Qed.

Section Progress.

Variable prog : list instr.
Variable rank : string → nat.
Hypothesis Hrank :
  ∀ (i : instr) (d s : string),
    i ∈ prog → writes get_regs i d → reads get_regs i s →
    Some s ∈ produced prog → (rank s < rank d)%nat.
Hypothesis Hresolvable : fully_resolvable get_regs prog.

Variable reg_avail : gmap pyname Z.
Variable un : list instr.
Hypothesis Hinv : sched_inv get_regs prog reg_avail un.

(** An operand without an entry is a produced register. *)
Lemma unkeyed_produced (i : instr) (r : pyname) :
  i ∈ prog → r ∈ (get_regs i).2 → reg_avail !! r = None →
  r ∈ produced prog.
Proof.
  intros Hi Hr Hnone. destruct (decide (r ∈ produced prog)) as [|Hn]; [done|].
  destruct Hinv as (_ & _ & Hext). destruct (Hext r) as [t Ht]; [|congruence].
  apply elem_of_external. eauto.
Qed.

(** Below a register without an entry there is a pending instruction
    whose operands all have one: follow the writers down the ranks. *)
Lemma keyed_below (n : nat) (s : string) (i0 : instr) :
  (rank s < n)%nat → i0 ∈ prog → Some s ∈ (get_regs i0).2 →
  reg_avail !! Some s = None →
  ∃ j, j ∈ un ∧ Forall (λ r, is_Some (reg_avail !! r)) (get_regs j).2.
Proof.
  revert s i0. induction n as [|n IH]; intros s i0 Hn Hi0 Hs Hnone; [lia|].
  destruct (Hresolvable i0 (Some s)) as (j & d & Hj & Hw & Hd);
    [done|done|by eapply unkeyed_produced|].
  injection Hd as <-.
  assert (j ∈ un) as Hjun.
  { destruct (decide (j ∈ un)) as [|Hnin]; [done|].
    destruct Hinv as (_ & Hwr & _).
    destruct (Hwr j s Hj Hnin Hw) as [t Ht]. congruence. }
  destruct (decide (Forall (λ r, is_Some (reg_avail !! r)) (get_regs j).2))
    as [|Hnot]; [eauto|].
  apply not_Forall_Exists in Hnot; [|apply _].
  apply Exists_exists in Hnot as (r & Hr & Hrn).
  apply eq_None_not_Some in Hrn.
  pose proof (unkeyed_produced j r Hj Hr Hrn) as Hprod.
  destruct (Hresolvable j r Hj Hr Hprod) as (_ & d' & _ & _ & ->).
  apply (IH d' j); [|done|done|done].
  assert (rank d' < rank s)%nat; [|lia]. by apply (Hrank j).
Qed.

Lemma pending_keyed :
  un ≠ [] →
  ∃ j, j ∈ un ∧ Forall (λ r, is_Some (reg_avail !! r)) (get_regs j).2.
Proof.
  intros Hne.
  assert (∃ i0, i0 ∈ un) as [i0 Hi0un].
  { clear Hinv. destruct un as [|x l]; [done|]. exists x. left. }
  destruct (decide (Forall (λ r, is_Some (reg_avail !! r)) (get_regs i0).2))
    as [|Hnot]; [eauto|].
  apply not_Forall_Exists in Hnot; [|apply _].
  apply Exists_exists in Hnot as (r & Hr & Hrn).
  apply eq_None_not_Some in Hrn.
  assert (i0 ∈ prog) as Hi0.
  { destruct Hinv as (Hsub & _). by apply Hsub. }
  pose proof (unkeyed_produced i0 r Hi0 Hr Hrn) as Hprod.
  destruct (Hresolvable i0 r Hi0 Hr Hprod) as (_ & s & _ & _ & ->).
  by apply (keyed_below (S (rank s)) s i0); [lia|..].
Qed.

End Progress.


Section Termination.

Variable prog : list instr.
Variable bundle_size : Z.
Hypothesis Hwidth : 0 < bundle_size.
Hypothesis Hacyclic : acyclic get_regs prog.
Hypothesis Hresolvable : fully_resolvable get_regs prog.

(** Once the operands of a pending instruction [j] are available
    within [m] cycles, at most [m] stall cycles pass before a bundle
    is issued; [Hshorter] is the induction hypothesis on the size of
    the pool. *)
Lemma stall_then_issue (n : nat) (reg_avail : gmap pyname Z) (j : instr) :
  (∀ un ra bundles c,
      (length un ≤ n)%nat → sched_inv get_regs prog ra un →
      ∃ fuel bs, sched_loop get_regs fuel bundle_size ra un bundles c
                 = Some (Ok bs)) →
  ∀ (m : nat) (c : Z) (un : list instr) (bundles : list bundle),
    (length un ≤ S n)%nat → sched_inv get_regs prog reg_avail un →
    j ∈ un →
    (∀ r, r ∈ (get_regs j).2 →
          not_yet reg_avail (c + Z.of_nat m) r = false) →
    ∃ fuel bs, sched_loop get_regs fuel bundle_size reg_avail un bundles c
               = Some (Ok bs).
Proof.
  intros Hshorter.
  induction m as [|m IH]; intros c un bundles Hlen Hinv Hj Hready.
  - destruct un as [|i0 un0]; [by apply elem_of_nil in Hj|].
    destruct (fill_bundle_total bundle_size reg_avail c
                (i0 :: un0) [] (i0 :: un0)) as (cb & un' & Ef); [done|].
    pose proof (fill_bundle_perm _ _ _ _ _ _ _ _ Ef) as Hp.
    assert (cb ≠ []) as Hne.
    { eapply fill_bundle_progress; [done|exact Hj| |exact Ef].
      intros r Hr. rewrite <- (Z.add_0_r c). by apply Hready. }
    destruct cb as [|c0 cb0]; [done|].
    destruct (Hshorter un'
                (update_avail get_regs c reg_avail (c0 :: cb0))
                (bundles ++ [(c, c0 :: cb0)])
                (c + foldl Z.max (compute_latency c0)
                                 (compute_latency <$> cb0)))
      as (fuel & bs & Hrun).
    { apply Permutation_length in Hp. rewrite length_app in Hp.
      simpl in Hp, Hlen. lia. }
    { by eapply sched_inv_issue. }
    exists (S fuel), bs. cbn [sched_loop]. rewrite Ef. exact Hrun.
  - destruct un as [|i0 un0]; [by apply elem_of_nil in Hj|].
    destruct (fill_bundle_total bundle_size reg_avail c
                (i0 :: un0) [] (i0 :: un0)) as (cb & un' & Ef); [done|].
    pose proof (fill_bundle_perm _ _ _ _ _ _ _ _ Ef) as Hp.
    destruct cb as [|c0 cb0].
    + simpl in Hp.
      destruct (IH (c + 1) un' bundles) as (fuel & bs & Hrun).
      { by rewrite (Permutation_length Hp). }
      { destruct Hinv as (H1 & H2 & H3). split; [|split; [|done]].
        - intros i Hi. apply H1. by rewrite <- Hp.
        - intros i d Hi Hni. apply H2; [done|]. by rewrite <- Hp. }
      { by rewrite Hp. }
      { intros r Hr. replace (c + 1 + Z.of_nat m) with (c + Z.of_nat (S m))
          by lia. by apply Hready. }
      exists (S fuel), bs. cbn [sched_loop]. rewrite Ef. exact Hrun.
    + destruct (Hshorter un'
                  (update_avail get_regs c reg_avail (c0 :: cb0))
                  (bundles ++ [(c, c0 :: cb0)])
                  (c + foldl Z.max (compute_latency c0)
                                   (compute_latency <$> cb0)))
        as (fuel & bs & Hrun).
      { apply Permutation_length in Hp. rewrite length_app in Hp.
        simpl in Hp, Hlen. lia. }
      { by eapply sched_inv_issue. }
      exists (S fuel), bs. cbn [sched_loop]. rewrite Ef. exact Hrun.
Qed.

Lemma sched_loop_terminates (n : nat) :
  ∀ un ra bundles c,
    (length un ≤ n)%nat → sched_inv get_regs prog ra un →
    ∃ fuel bs, sched_loop get_regs fuel bundle_size ra un bundles c
               = Some (Ok bs).
Proof.
  induction n as [|n IH]; intros un ra bundles c Hlen Hinv.
  - destruct un as [|i0 un0]; [|simpl in Hlen; lia].
    by exists 1%nat, bundles.
  - destruct (decide (un = [])) as [->|Hne].
    { by exists 1%nat, bundles. }
    destruct Hacyclic as [rank Hrank].
    destruct (pending_keyed prog rank Hrank Hresolvable ra un Hinv Hne)
      as (j & Hj & Hkeys).
    destruct (keyed_ready_later ra _ c Hkeys) as [m Hm].
    by apply (stall_then_issue n ra j IH m).
Qed.

Lemma schedule_with_terminates :
  ∃ fuel bs, schedule_with get_regs fuel prog bundle_size = Some (Ok bs).
Proof.
  apply (sched_loop_terminates (length prog)); [done|].
  apply sched_inv_init.
Qed.

End Termination.


(** *** The checkers are sound *)

Lemma check_acyclic_sound (rank : string → nat) (prog : list instr) :
  check_acyclic get_regs rank prog = true → acyclic get_regs prog.
Proof.
  unfold check_acyclic. rewrite forallb_forall. intros H.
  exists rank. intros i d s Hi Hw Hr Hp.
  apply list_elem_of_In in Hi. specialize (H i Hi).
  unfold writes in Hw. rewrite Hw in H.
  rewrite forallb_forall in H. unfold reads in Hr.
  apply list_elem_of_In in Hr. specialize (H _ Hr). simpl in H.
  apply bool_decide_eq_true in H. by apply H.
Qed.

Lemma check_resolvable_sound (prog : list instr) :
  check_resolvable get_regs prog = true → fully_resolvable get_regs prog.
Proof.
  unfold check_resolvable. rewrite forallb_forall. intros H i r Hi Hr Hp.
  apply list_elem_of_In in Hi. specialize (H i Hi).
  rewrite forallb_forall in H. apply list_elem_of_In in Hr.
  specialize (H _ Hr). apply bool_decide_eq_true in H.
  apply Exists_exists in H as (j & Hj & Hne & Hd); [|done].
  destruct r as [d|]; [|done]. by exists j, d.
Qed.

(** *** The [while] loop: when it never ends *)

(** With a width of zero or less the scan stops at once. *)
Lemma sched_loop_no_width bundle_size fuel reg_avail un bundles cycle :
  bundle_size ≤ 0 → un ≠ [] →
  sched_loop get_regs fuel bundle_size reg_avail un bundles cycle = None.
Proof.
  intros HW Hne. revert cycle.
  induction fuel as [|fuel IH]; intros cycle; [done|].
  cbn [sched_loop]. destruct un as [|i0 un0]; [done|].
  cbn [fill_bundle]. rewrite bool_decide_eq_true_2; [|simpl; lia].
  apply IH.
Qed.

(** A pool in which every instruction waits for a register that has
    no entry is scanned in vain. *)
Lemma fill_bundle_stuck bundle_size reg_avail cycle snapshot cb un :
  (∀ i, i ∈ snapshot → ∃ r, r ∈ (get_regs i).2 ∧ reg_avail !! r = None) →
  fill_bundle get_regs bundle_size reg_avail cycle snapshot cb un
    = Ok (cb, un).
Proof.
  induction snapshot as [|i s IH]; intros Hw; [done|].
  cbn [fill_bundle]. case_bool_decide; [done|].
  destruct (Hw i) as (r & Hr & Hnone); [left|].
  destruct (get_regs i) as [d srcs]. simpl in Hr.
  assert (existsb (not_yet reg_avail cycle) srcs = true) as ->.
  { apply existsb_exists. exists r. split; [by apply list_elem_of_In|].
    unfold not_yet. by rewrite Hnone. }
  apply IH. intros i' Hi'. apply Hw. by right.
Qed.

Lemma sched_loop_stuck bundle_size fuel reg_avail un bundles cycle :
  (∀ i, i ∈ un → ∃ r, r ∈ (get_regs i).2 ∧ reg_avail !! r = None) →
  un ≠ [] →
  sched_loop get_regs fuel bundle_size reg_avail un bundles cycle = None.
Proof.
  intros Hw Hne. revert cycle.
  induction fuel as [|fuel IH]; intros cycle; [done|].
  cbn [sched_loop]. destruct un as [|i0 un0]; [done|].
  rewrite fill_bundle_stuck by done. apply IH.
Qed.


(** *** Availability of the operands of an admitted instruction *)

(** Every instruction the scan admits has all its operands, as given
    by [get_regs], available at the current cycle. *)
Lemma fill_bundle_ready bundle_size reg_avail cycle snapshot cb un cb' un' :
  Forall (λ i, ∀ r, r ∈ (get_regs i).2 → not_yet reg_avail cycle r = false)
         cb →
  fill_bundle get_regs bundle_size reg_avail cycle snapshot cb un
    = Ok (cb', un') →
  Forall (λ i, ∀ r, r ∈ (get_regs i).2 → not_yet reg_avail cycle r = false)
         cb'.
Proof.
  revert cb un. induction snapshot as [|i s IH]; intros cb un Hcb H; simpl in H.
  { by inversion H; subst. }
  case_bool_decide; [by inversion H; subst|].
  destruct (get_regs i) as [d srcs] eqn:Ei.
  destruct (existsb _ srcs) eqn:Es; [by eapply IH|].
  destruct (existsb _ cb); [by eapply IH|].
  destruct (py_remove i un) as [un1|e]; simpl in H; [|done].
  eapply IH; [|exact H]. apply Forall_app. split; [done|].
  apply Forall_singleton. intros r Hr. rewrite Ei in Hr. simpl in Hr.
  destruct (not_yet reg_avail cycle r) eqn:En; [|done].
  assert (existsb (not_yet reg_avail cycle) srcs = true); [|congruence].
  apply existsb_exists. exists r. split; [by apply list_elem_of_In|done].
Qed.

End SchedulerFacts.

(** C1. Every bundle of a schedule returned by [schedule_instructions]
    holds at most [bundle_size] instructions and has no write-after-write,
    read-after-write or write-after-read hazard between two of its
    instructions. *)
Theorem schedule_bundles_width_and_hazards (fuel : nat)
    (instructions : list instr) (bundle_size : Z) (bs : list bundle) :
  schedule_instructions fuel instructions bundle_size = Some (Ok bs) →
  Forall (λ b : bundle, Z.of_nat (length b.2) ≤ bundle_size
                        ∧ hazard_free get_registers b.2) bs.
Proof.
  intros H. eapply sched_loop_bundles_ok; [|exact H]. constructor.
Qed.

Lemma schedule_bundles_width_and_hazards_witness :
  Forall (λ b : bundle, Z.of_nat (length b.2) ≤ 2
                        ∧ hazard_free get_registers b.2) program_schedule.
Proof.
  apply (schedule_bundles_width_and_hazards 5 program 2 program_schedule).
  vm_compute. reflexivity.
Defined.

(** C2 (amended). For a bundle width of at least 1 and an acyclic,
    fully-resolvable program, [schedule_instructions] terminates (some
    amount of fuel suffices, and any larger amount gives the same
    schedule), the bundles of the schedule hold the instructions of the
    program, each exactly once, and, when no instruction has a negative
    latency, the start cycles of the bundles never decrease. *)
Theorem schedule_terminates_and_covers (instructions : list instr)
    (bundle_size : Z) :
  0 < bundle_size →
  acyclic get_registers instructions →
  fully_resolvable get_registers instructions →
  ∃ (fuel : nat) (bs : list bundle),
    (∀ fuel', (fuel ≤ fuel')%nat →
       schedule_instructions fuel' instructions bundle_size = Some (Ok bs))
    ∧ flatten bs ≡ₚ instructions
    ∧ ((∀ i, i ∈ instructions → 0 ≤ compute_latency i) →
       StronglySorted Z.le (fst <$> bs)).
Proof.
  intros HW Hac Hres. unfold flatten.
  destruct (schedule_with_terminates get_registers instructions bundle_size
              HW Hac Hres) as (fuel & bs & Hrun).
  exists fuel, bs. split; [|split].
  - intros fuel' Hle. by eapply sched_loop_fuel_mono.
  - by apply sched_loop_perm in Hrun.
  - intros Hlat. eapply sched_loop_sorted; [exact Hlat| | |exact Hrun];
      constructor.
Qed.

(** C2, as stated, fails twice. With a width of zero the scheduler never
    terminates on a one-instruction program, acyclic and fully
    resolvable; and with a negative size the second bundle starts before
    the first. *)
Lemma schedule_terminates_counterexample :
  (acyclic get_registers single_load
   ∧ fully_resolvable get_registers single_load
   ∧ ∀ fuel, schedule_instructions fuel single_load 0 = None)
  ∧ (acyclic get_registers negative_size_program
     ∧ fully_resolvable get_registers negative_size_program
     ∧ schedule_instructions 3 negative_size_program 1
       = Some (Ok [ (0, [ Instr "ADD" (Some "R1") (Some "a") (Some "b") (-20) ]);
                    (-1, [ Instr "MOVE" (Some "R2") (Some "R1") None 1 ]) ])
     ∧ ¬ StronglySorted Z.le [0; -1]).
Proof.
  split; [split; [|split]|split; [|split; [|split]]].
  - by apply (check_acyclic_sound _ (λ _, 0%nat)).
  - by apply check_resolvable_sound.
  - intros fuel. by apply sched_loop_no_width.
  - by apply (check_acyclic_sound _ (rank_in ["R1"; "R2"])).
  - by apply check_resolvable_sound.
  - vm_compute. reflexivity.
  - intros Hs. apply StronglySorted_inv in Hs as [_ Hall].
    apply Forall_cons in Hall as [Hle _]. lia.
Qed.

Lemma program_acyclic : acyclic get_registers program.
Proof.
  by apply (check_acyclic_sound _ (rank_in ["R1"; "R2"; "R4"; "R3"; "R5"])).
Qed.

Lemma program_resolvable : fully_resolvable get_registers program.
Proof. by apply check_resolvable_sound. Qed.

Lemma schedule_terminates_and_covers_witness :
  ∃ (fuel : nat) (bs : list bundle),
    (∀ fuel', (fuel ≤ fuel')%nat →
       schedule_instructions fuel' program 2 = Some (Ok bs))
    ∧ flatten bs ≡ₚ program
    ∧ ((∀ i, i ∈ program → 0 ≤ compute_latency i) →
       StronglySorted Z.le (fst <$> bs)).
Proof.
  apply (schedule_terminates_and_covers program 2).
  - lia.
  - exact program_acyclic.
  - exact program_resolvable.
Defined.

(** ** Properties of the operation catalog *)

Lemma base_latencies_unknown (o : string) :
  o ∉ defined_kinds → base_latencies !! o = None.
Proof.
  intros Hn. unfold base_latencies. apply not_elem_of_list_to_map_1.
  intros Hin. apply Hn. unfold defined_kinds. simpl in Hin.
  repeat (apply elem_of_cons in Hin as [->|Hin]; [set_solver|]).
  by apply elem_of_nil in Hin.
Qed.

Lemma base_latencies_positive (o : string) :
  1 ≤ default 1 (base_latencies !! o).
Proof.
  destruct (base_latencies !! o) as [b|] eqn:E; simpl; [|lia].
  unfold base_latencies in E. apply elem_of_list_to_map_2 in E.
  repeat (apply elem_of_cons in E as [[= _ ->]|E]; [lia|]).
  by apply elem_of_nil in E.
Qed.

(** C7, as stated, fails: a negative size gives a negative latency. *)
Lemma compute_latency_counterexample :
  compute_latency (Instr "ADD" (Some "R1") (Some "a") (Some "b") (-20)) = -1
  ∧ ¬ (0 ≤ compute_latency
             (Instr "ADD" (Some "R1") (Some "a") (Some "b") (-20))).
Proof. split; [reflexivity|]. vm_compute. by intros H; apply H. Qed.

(** C7 (amended). For every operation kind and every size,
    [compute_latency] is the base latency of the kind (1 for ADD and SUB,
    2 for MUL, 3 for MOVE, LOAD and STORE, and 1 for any other kind) plus
    [extra], the number of whole tens in the size; it is non-negative
    for every size of at least -10, so for every non-negative size. *)
Theorem compute_latency_spec (i : instr) :
  (∃ base extra : Z,
      compute_latency i = base + extra
      ∧ 10 * extra ≤ size i < 10 * extra + 10
      ∧ (op i = "ADD" ∨ op i = "SUB" → base = 1)
      ∧ (op i = "MUL" → base = 2)
      ∧ (op i = "MOVE" ∨ op i = "LOAD" ∨ op i = "STORE" → base = 3)
      ∧ (op i ∉ defined_kinds → base = 1))
  ∧ (-10 ≤ size i → 0 ≤ compute_latency i).
Proof.
  pose proof (Z.div_mod (size i) 10) as Hdm.
  pose proof (Z.mod_pos_bound (size i) 10) as Hmod.
  pose proof (base_latencies_positive (op i)) as Hbase.
  split; [|intros Hsize; unfold compute_latency; lia].
  exists (default 1 (base_latencies !! op i)), (size i / 10).
  split; [done|]. split; [lia|].
  repeat split.
  - by intros [->| ->].
  - by intros ->.
  - by intros [->|[->| ->]].
  - intros Hn. by rewrite base_latencies_unknown.
Qed.

Lemma compute_latency_spec_witness :
  (∃ base extra : Z,
      compute_latency (Instr "LOAD" (Some "R1") (Some "input0") None 16)
        = base + extra
      ∧ 10 * extra ≤ 16 < 10 * extra + 10
      ∧ ("LOAD" = "ADD" ∨ "LOAD" = "SUB" → base = 1)
      ∧ ("LOAD" = "MUL" → base = 2)
      ∧ ("LOAD" = "MOVE" ∨ "LOAD" = "LOAD" ∨ "LOAD" = "STORE" → base = 3)
      ∧ ("LOAD" ∉ defined_kinds → base = 1))
  ∧ 0 ≤ compute_latency (Instr "LOAD" (Some "R1") (Some "input0") None 16).
Proof.
  destruct (compute_latency_spec
              (Instr "LOAD" (Some "R1") (Some "input0") None 16))
    as [Hformula Hsign].
  split; [exact Hformula|]. apply Hsign. simpl. lia.
Defined.

(** ** Properties of the executor *)

Lemma getitem_ok (d : gmap pyname Z) (k : pyname) (v : Z) :
  d !! k = Some v → getitem d k = Ok v.
Proof. unfold getitem. by intros ->. Qed.

Lemma getitem_raise (d : gmap pyname Z) (k : pyname) :
  d !! k = None → getitem d k = Raise (KeyError k).
Proof. unfold getitem. by intros ->. Qed.

Lemma getitem_empty (k : pyname) : getitem ∅ k = Raise (KeyError k).
Proof. apply getitem_raise, lookup_empty. Qed.

(** The kind of an instruction is one of the six defined ones, or none. *)
Lemma kind_cases (o : string) :
  o = "LOAD" ∨ o = "STORE" ∨ o = "ADD" ∨ o = "SUB" ∨ o = "MUL" ∨ o = "MOVE"
  ∨ o ∉ defined_kinds.
Proof.
  destruct (decide (o ∈ defined_kinds)) as [Hin|Hn]; [|tauto].
  unfold defined_kinds in Hin.
  repeat (apply elem_of_cons in Hin as [->|Hin]; [tauto|]).
  by apply elem_of_nil in Hin.
Qed.

Ltac exec_case i Hop :=
  unfold execute_instruction, missing_input, unwritten_read, undefined_kind,
         exec_reads;
  destruct i as [o d s1 s2 sz]; simpl in Hop |- *; subst o; simpl.

Ltac lookup_cases regs r :=
  let v := fresh "v" in let E := fresh "E" in
  destruct (regs !! r) as [v|] eqn:E;
  [rewrite (getitem_ok _ _ _ E)|rewrite (getitem_raise _ _ E)]; simpl.

(** When the executor raises, and that it changes one register
    otherwise. *)
Lemma execute_instruction_outcome (i : instr)
    (registers inputs : gmap pyname Z) :
  match execute_instruction i registers inputs with
  | Raise _ =>
      missing_input i inputs ∨ unwritten_read i registers ∨ undefined_kind i
  | Ok registers' =>
      ¬ (missing_input i inputs ∨ unwritten_read i registers
         ∨ undefined_kind i)
      ∧ ∃ k v, registers' = <[k := v]> registers
  end.
Proof.
  destruct (kind_cases (op i))
    as [Hop|[Hop|[Hop|[Hop|[Hop|[Hop|Hop]]]]]].
  - exec_case i Hop. lookup_cases inputs s1.
    + split; [|eauto]. intros [[_ ?]|[(r & Hr & _)|Hk]]; [congruence| |].
      * by apply elem_of_nil in Hr.
      * apply Hk. set_solver.
    + by left.
  - exec_case i Hop. lookup_cases registers d.
    + split; [|eauto]. intros [[? _]|[(r & Hr & Hn)|Hk]]; [done| |].
      * apply list_elem_of_singleton in Hr as ->. congruence.
      * apply Hk. set_solver.
    + right; left. exists d. split; [left|done].
  - exec_case i Hop. lookup_cases registers s1; [lookup_cases registers s2|].
    + split; [|eauto]. intros [[? _]|[(r & Hr & Hn)|Hk]]; [done| |].
      * apply elem_of_cons in Hr as [->|Hr]; [congruence|].
        apply list_elem_of_singleton in Hr as ->. congruence.
      * apply Hk. set_solver.
    + right; left. exists s2. split; [right; left|done].
    + right; left. exists s1. split; [left|done].
  - exec_case i Hop. lookup_cases registers s1; [lookup_cases registers s2|].
    + split; [|eauto]. intros [[? _]|[(r & Hr & Hn)|Hk]]; [done| |].
      * apply elem_of_cons in Hr as [->|Hr]; [congruence|].
        apply list_elem_of_singleton in Hr as ->. congruence.
      * apply Hk. set_solver.
    + right; left. exists s2. split; [right; left|done].
    + right; left. exists s1. split; [left|done].
  - exec_case i Hop. lookup_cases registers s1; [lookup_cases registers s2|].
    + split; [|eauto]. intros [[? _]|[(r & Hr & Hn)|Hk]]; [done| |].
      * apply elem_of_cons in Hr as [->|Hr]; [congruence|].
        apply list_elem_of_singleton in Hr as ->. congruence.
      * apply Hk. set_solver.
    + right; left. exists s2. split; [right; left|done].
    + right; left. exists s1. split; [left|done].
  - exec_case i Hop. lookup_cases registers s1.
    + split; [|eauto]. intros [[? _]|[(r & Hr & Hn)|Hk]]; [done| |].
      * apply list_elem_of_singleton in Hr as ->. congruence.
      * apply Hk. set_solver.
    + right; left. exists s1. split; [left|done].
  - unfold execute_instruction.
    assert (∀ k, k ∈ defined_kinds → op i ≠ k) as Hne.
    { intros k Hk Heq. apply Hop. by rewrite Heq. }
    rewrite !decide_False; [by right; right|..]; apply Hne; set_solver.
Qed.

(** What a successful instruction stores, kind by kind. *)
Lemma execute_instruction_stores (i : instr)
    (registers inputs registers' : gmap pyname Z) :
  execute_instruction i registers inputs = Ok registers' →
  (op i = "LOAD" →
     ∃ v, inputs !! src1 i = Some v
          ∧ registers' = <[dest i := v]> registers)
  ∧ (op i = "STORE" →
       ∃ v, registers !! dest i = Some v
            ∧ registers' = <[Some "OUTPUT" := v]> registers)
  ∧ (op i = "ADD" →
       ∃ a b, registers !! src1 i = Some a ∧ registers !! src2 i = Some b
              ∧ registers' = <[dest i := a + b]> registers)
  ∧ (op i = "SUB" →
       ∃ a b, registers !! src1 i = Some a ∧ registers !! src2 i = Some b
              ∧ registers' = <[dest i := a - b]> registers)
  ∧ (op i = "MUL" →
       ∃ a b, registers !! src1 i = Some a ∧ registers !! src2 i = Some b
              ∧ registers' = <[dest i := a * b]> registers)
  ∧ (op i = "MOVE" →
       ∃ v, registers !! src1 i = Some v
            ∧ registers' = <[dest i := v]> registers).
Proof.
  intros H. destruct i as [o d s1 s2 sz]. simpl.
  repeat split; intros ->; unfold execute_instruction, getitem in H;
    simpl in H;
    repeat match type of H with
           | context [match ?m !! ?k with _ => _ end] =>
               destruct (m !! k); simpl in H
           end;
    try done; injection H as <-; eauto.
Qed.

(** C8. [execute_instruction] raises exactly when the key of a LOAD is
    absent from the inputs, or a register it reads has not been written,
    or its kind has no execution rule. Otherwise it returns the register
    file with one register updated, and nothing else changed: a LOAD
    stores the input of its key into its destination, a STORE stores the
    value of its operand into [OUTPUT], ADD, SUB and MUL store the sum,
    the difference and the product of their two operands into their
    destination, and a MOVE stores the value of its operand there. *)
Theorem execute_instruction_fails_iff (i : instr)
    (registers inputs : gmap pyname Z) :
  match execute_instruction i registers inputs with
  | Raise _ =>
      missing_input i inputs ∨ unwritten_read i registers ∨ undefined_kind i
  | Ok registers' =>
      ¬ (missing_input i inputs ∨ unwritten_read i registers
         ∨ undefined_kind i)
      ∧ (∃ v, registers' = <[write_key i := v]> registers)
      ∧ (op i = "LOAD" →
           ∃ v, inputs !! src1 i = Some v
                ∧ registers' = <[dest i := v]> registers)
      ∧ (op i = "STORE" →
           ∃ v, registers !! dest i = Some v
                ∧ registers' = <[Some "OUTPUT" := v]> registers)
      ∧ (op i = "ADD" →
           ∃ a b, registers !! src1 i = Some a ∧ registers !! src2 i = Some b
                  ∧ registers' = <[dest i := a + b]> registers)
      ∧ (op i = "SUB" →
           ∃ a b, registers !! src1 i = Some a ∧ registers !! src2 i = Some b
                  ∧ registers' = <[dest i := a - b]> registers)
      ∧ (op i = "MUL" →
           ∃ a b, registers !! src1 i = Some a ∧ registers !! src2 i = Some b
                  ∧ registers' = <[dest i := a * b]> registers)
      ∧ (op i = "MOVE" →
           ∃ v, registers !! src1 i = Some v
                ∧ registers' = <[dest i := v]> registers)
  end.
Proof.
  pose proof (execute_instruction_outcome i registers inputs) as Hout.
  pose proof (execute_instruction_stores i registers inputs) as Hst.
  destruct (execute_instruction i registers inputs) as [registers'|e] eqn:E;
    [|exact Hout].
  destruct Hout as [Hnot _]. specialize (Hst registers' eq_refl).
  split; [exact Hnot|]. split; [|exact Hst].
  destruct Hst as (Hload & Hstore & Hadd & Hsub & Hmul & Hmove).
  unfold write_key.
  destruct (kind_cases (op i))
    as [Hop|[Hop|[Hop|[Hop|[Hop|[Hop|Hop]]]]]].
  - destruct (Hload Hop) as (v & _ & ->). rewrite decide_False by (by rewrite Hop). eauto.
  - destruct (Hstore Hop) as (v & _ & ->). rewrite decide_True by done. eauto.
  - destruct (Hadd Hop) as (a & b & _ & _ & ->). rewrite decide_False by (by rewrite Hop). eauto.
  - destruct (Hsub Hop) as (a & b & _ & _ & ->). rewrite decide_False by (by rewrite Hop). eauto.
  - destruct (Hmul Hop) as (a & b & _ & _ & ->). rewrite decide_False by (by rewrite Hop). eauto.
  - destruct (Hmove Hop) as (v & _ & ->). rewrite decide_False by (by rewrite Hop). eauto.
  - exfalso. apply Hnot. right; right. exact Hop.
Qed.


(** The two copies of the execution loop agree. *)
Lemma run_program_loop_eq (bundles : list bundle)
    (inputs registers : gmap pyname Z) (current_cycle : Z) :
  run_program_loop bundles inputs registers current_cycle
  = run_bundle_loop bundles inputs registers current_cycle.
Proof.
  revert registers current_cycle.
  induction bundles as [|[cycle instrs] bundles IH]; intros registers c; [done|].
  cbn [run_program_loop run_bundle_loop].
  destruct (exec_bundle instrs registers inputs) as [registers'|e]; [|done].
  simpl. destruct (py_max _) as [bl|e]; [|done]. simpl. apply IH.
Qed.

(** C5. [run_program] returns what [run_bundle] returns on the schedule
    computed by [schedule_instructions] (and it fails, or runs out of
    fuel, when the scheduler does). *)
Theorem run_program_is_schedule_then_replay (fuel : nat)
    (instructions : list instr) (inputs : gmap pyname Z) (bundle_size : Z) :
  run_program fuel instructions inputs bundle_size
  = match schedule_instructions fuel instructions bundle_size with
    | None => None
    | Some (Raise e) => Some (Raise e)
    | Some (Ok bundles) => Some (run_bundle bundles inputs)
    end.
Proof.
  unfold run_program, run_bundle.
  destruct (schedule_instructions fuel instructions bundle_size)
    as [[bundles|e]|]; [|done|done].
  rewrite run_program_loop_eq.
  by destruct (run_bundle_loop bundles inputs ∅ 0) as [[registers c]|e].
Qed.

(** More fuel does not change what [run_program] returns. *)
Lemma run_program_fuel_mono (fuel fuel' : nat) (instructions : list instr)
    (inputs : gmap pyname Z) (bundle_size : Z) (r : result (option Z)) :
  (fuel ≤ fuel')%nat →
  run_program fuel instructions inputs bundle_size = Some r →
  run_program fuel' instructions inputs bundle_size = Some r.
Proof.
  unfold run_program, schedule_instructions, schedule_with, schedule_ordered.
  intros Hle H.
  destruct (sched_loop get_registers fuel _ _ _ _ _) as [rs|] eqn:Es; [|done].
  by rewrite (sched_loop_fuel_mono _ _ _ _ _ _ _ _ _ Hle Es).
Qed.

Lemma exec_bundle_app (l1 l2 : list instr) (registers inputs : gmap pyname Z) :
  exec_bundle (l1 ++ l2) registers inputs
  = registers' ← exec_bundle l1 registers inputs;
    exec_bundle l2 registers' inputs.
Proof.
  revert registers. induction l1 as [|i l1 IH]; intros registers; [done|].
  simpl. destruct (execute_instruction i registers inputs); simpl; [|done].
  apply IH.
Qed.

(** Replaying bundles, none of them empty, is executing their
    instructions in sequence. *)
Lemma run_bundle_loop_flatten (bundles : list bundle)
    (inputs registers : gmap pyname Z) (current_cycle : Z) :
  Forall (λ b : bundle, b.2 ≠ []) bundles →
  match run_bundle_loop bundles inputs registers current_cycle with
  | Ok st => exec_bundle (flatten bundles) registers inputs = Ok st.1
  | Raise e => exec_bundle (flatten bundles) registers inputs = Raise e
  end.
Proof.
  intros Hne. revert registers current_cycle.
  induction Hne as [|[cycle instrs] bundles Hi _ IH]; intros registers c; [done|].
  cbn [run_bundle_loop]. unfold flatten. rewrite fmap_cons. simpl.
  rewrite exec_bundle_app.
  destruct (exec_bundle instrs registers inputs) as [registers'|e]; [|done].
  simpl. destruct instrs as [|i0 instrs0]; [done|]. simpl. apply IH.
Qed.

(** C10, as stated, fails: an empty bundle makes [run_bundle] raise
    (the [max] of no latency), though it adds no instruction. *)
Lemma run_bundle_grouping_counterexample :
  flatten [(0, [])] = flatten []
  ∧ run_bundle [] ∅ = Ok None
  ∧ run_bundle [(0, [])] ∅
    = Raise (ValueError "max() arg is an empty sequence").
Proof. by repeat split. Qed.

(** C10 (amended). Two schedules without an empty bundle and with the
    same instruction sequence give the same result of [run_bundle] (the
    same output or the same failure) on the same inputs, whatever their
    start cycles and the grouping of the instructions. *)
Theorem run_bundle_depends_on_flatten (bs1 bs2 : list bundle)
    (inputs : gmap pyname Z) :
  Forall (λ b : bundle, b.2 ≠ []) bs1 →
  Forall (λ b : bundle, b.2 ≠ []) bs2 →
  flatten bs1 = flatten bs2 →
  run_bundle bs1 inputs = run_bundle bs2 inputs.
Proof.
  intros H1 H2 Hflat. unfold run_bundle.
  pose proof (run_bundle_loop_flatten bs1 inputs ∅ 0 H1) as E1.
  pose proof (run_bundle_loop_flatten bs2 inputs ∅ 0 H2) as E2.
  rewrite Hflat in E1.
  destruct (run_bundle_loop bs1 inputs ∅ 0) as [st1|e1];
    destruct (run_bundle_loop bs2 inputs ∅ 0) as [st2|e2];
    simpl; congruence.
Qed.

Lemma run_bundle_depends_on_flatten_witness :
  run_bundle
    [(0, [Instr "LOAD" (Some "R1") (Some "input0") None 16]);
     (7, [Instr "STORE" (Some "R1") None None 1])] inputs
  = run_bundle
      [(3, [Instr "LOAD" (Some "R1") (Some "input0") None 16;
            Instr "STORE" (Some "R1") None None 1])] inputs.
Proof.
  apply run_bundle_depends_on_flatten.
  - by repeat constructor.
  - by repeat constructor.
  - reflexivity.
Defined.

(** C9. The example program of [execute.py], on the inputs 3, 5 and 10,
    returns 80 for the bundle widths 1, 2, 4 and 50, with any fuel of 8
    or more. *)
Theorem run_program_example :
  Forall (λ bundle_size : Z,
            ∀ k : nat,
              run_program (8 + k) program inputs bundle_size
              = Some (Ok (Some 80)))
         [1; 2; 4; 50].
Proof.
  repeat (constructor;
          [intros k; apply (run_program_fuel_mono 8);
           [lia|vm_compute; reflexivity]|]).
  constructor.
Qed.

(** ** One-instruction programs *)

(** A single instruction that reads nothing the program produces is
    issued at cycle 0. *)
Lemma schedule_single (get_regs : instr → pyname * list pyname) (i : instr)
    (bundle_size : Z) (fuel : nat) :
  0 < bundle_size →
  (∀ r, r ∈ (get_regs i).2 → r ∉ produced [i]) →
  schedule_with get_regs (S (S fuel)) [i] bundle_size = Some (Ok [(0, [i])]).
Proof.
  intros HW Hext. unfold schedule_with, schedule_ordered.
  set (ra := init_reg_avail (elements (external get_regs [i]))).
  assert (existsb (not_yet ra 0) (get_regs i).2 = false) as Hready.
  { apply not_true_iff_false. intros H.
    apply existsb_exists in H as (r & Hr & Hn).
    apply list_elem_of_In in Hr.
    unfold not_yet, ra in Hn. rewrite init_reg_avail_lookup in Hn.
    rewrite decide_True in Hn; [done|].
    apply elem_of_elements, elem_of_external.
    exists i. split; [left|]. split; [done|by apply Hext]. }
  cbn [sched_loop fill_bundle].
  rewrite bool_decide_eq_false_2 by (simpl; lia).
  destruct (get_regs i) as [d srcs]. simpl in Hready. rewrite Hready.
  simpl. rewrite decide_True by done. done.
Qed.

(** On an empty register file every defined kind fails on its first
    lookup, a LOAD when its key is not among the inputs. *)
Lemma execute_instruction_empty (i : instr) (inputs : gmap pyname Z) :
  op i ∈ defined_kinds →
  (op i = "LOAD" → inputs !! src1 i = None) →
  execute_instruction i ∅ inputs
  = Raise (KeyError (if decide (op i = "STORE") then dest i else src1 i)).
Proof.
  intros Hk Hload. unfold defined_kinds in Hk.
  unfold execute_instruction. destruct i as [o d s1 s2 sz]. simpl in *.
  apply elem_of_cons in Hk as [->|Hk].
  { simpl. by rewrite getitem_raise by auto. }
  repeat (apply elem_of_cons in Hk as [->|Hk];
          [simpl; by rewrite ?getitem_empty|]).
  by apply elem_of_nil in Hk.
Qed.

(** A single instruction, as an operand of the scheduler lemmas. *)
Lemma not_produced_single (i : instr) (srcs : list pyname) :
  (op i ≠ "STORE" → dest i ∉ srcs) →
  ∀ r, r ∈ srcs → r ∉ produced [i].
Proof.
  intros Hd r Hr. rewrite elem_of_produced. intros (j & Hj & Hop & Hdest).
  apply list_elem_of_singleton in Hj. subst j r. by apply Hd.
Qed.

(** C4, as stated, fails. The sole instruction [self_reading] reads
    [R2], neither produced nor supplied, and the scheduler loops for
    ever (it also waits for [R1], which the instruction itself writes);
    the sole instruction [load_with_spare_operand] reads [R7], neither
    produced nor supplied, and the run ends without any failure; with a
    bundle width of zero the scheduler loops for ever on [load_missing],
    whose key is neither produced nor supplied; and [undefined_div],
    which reads [R8], neither produced nor supplied, fails as an unknown
    operation, not for a missing input. *)
Lemma sole_instruction_counterexample :
  (Some "R2" ∈ (get_registers self_reading).2
   ∧ (Some "R2" ∉ produced [self_reading])
   ∧ (∅ : gmap pyname Z) !! Some "R2" = None
   ∧ ∀ fuel, run_program fuel [self_reading] ∅ 2 = None)
  ∧ (Some "R7" ∈ (get_registers load_with_spare_operand).2
     ∧ (Some "R7" ∉ produced [load_with_spare_operand])
     ∧ inputs !! Some "R7" = None
     ∧ ∀ fuel, run_program (S (S fuel)) [load_with_spare_operand] inputs 2
               = Some (Ok None))
  ∧ (Some "input9" ∈ (get_registers load_missing).2
     ∧ (Some "input9" ∉ produced [load_missing])
     ∧ inputs !! Some "input9" = None
     ∧ ∀ fuel, run_program fuel [load_missing] inputs 0 = None)
  ∧ (Some "R8" ∈ (get_registers undefined_div).2
     ∧ (Some "R8" ∉ produced [undefined_div])
     ∧ inputs !! Some "R8" = None
     ∧ ∀ fuel, run_program (S (S fuel)) [undefined_div] inputs 2
               = Some (Raise (ValueError "Unknown operation: DIV"))).
Proof.
  split; [|split; [|split]]; (split; [|split; [|split]]).
  - vm_compute. set_solver.
  - by vm_compute.
  - done.
  - intros fuel. unfold run_program, schedule_instructions, schedule_with,
      schedule_ordered.
    rewrite sched_loop_stuck; [done| |done].
    intros i Hi. apply list_elem_of_singleton in Hi as ->.
    exists (Some "R1"). split; [vm_compute; set_solver|by vm_compute].
  - vm_compute. set_solver.
  - by vm_compute.
  - by vm_compute.
  - intros fuel. unfold run_program, schedule_instructions.
    rewrite schedule_single; [by vm_compute|lia|].
    apply not_produced_single. intros _. vm_compute. set_solver.
  - vm_compute. set_solver.
  - by vm_compute.
  - by vm_compute.
  - intros fuel. unfold run_program, schedule_instructions, schedule_with,
      schedule_ordered.
    by rewrite sched_loop_no_width.
  - vm_compute. set_solver.
  - by vm_compute.
  - by vm_compute.
  - intros fuel. unfold run_program, schedule_instructions.
    rewrite schedule_single; [by vm_compute|lia|].
    apply not_produced_single. intros _. vm_compute. set_solver.
Qed.

(** C4 (amended). For a bundle width of at least 1 and a program whose
    sole instruction has one of the six defined kinds, reads no register
    that the program produces and, when it is a LOAD, has an input key
    absent from the inputs, [run_program] terminates with a [KeyError]:
    any fuel of 2 or more gives this failure. *)
Theorem sole_instruction_fails (i : instr) (inputs : gmap pyname Z)
    (bundle_size : Z) :
  0 < bundle_size →
  op i ∈ defined_kinds →
  (∀ r, r ∈ (get_registers i).2 → r ∉ produced [i]) →
  (op i = "LOAD" → inputs !! src1 i = None) →
  ∃ k : pyname,
    ∀ fuel : nat,
      run_program (S (S fuel)) [i] inputs bundle_size
      = Some (Raise (KeyError k)).
Proof.
  intros HW Hk Hext Hload.
  exists (if decide (op i = "STORE") then dest i else src1 i). intros fuel.
  unfold run_program, schedule_instructions.
  rewrite schedule_single by done.
  cbn [run_program_loop exec_bundle].
  by rewrite execute_instruction_empty.
Qed.

Lemma sole_instruction_fails_witness :
  ∃ k : pyname,
    ∀ fuel : nat,
      run_program (S (S fuel)) [load_missing] inputs 2
      = Some (Raise (KeyError k)).
Proof.
  apply (sole_instruction_fails load_missing inputs 2).
  - lia.
  - vm_compute. set_solver.
  - apply not_produced_single. intros _. vm_compute. set_solver.
  - intros _. vm_compute. reflexivity.
Defined.

(** ** The STORE operand: [execute.py] against [bundle.py] *)

(** In [execute.py] the destination field of a STORE is its one source,
    and a STORE has no destination. *)
Lemma get_registers_store (i : instr) :
  op i = "STORE" → get_registers i = (None, [dest i]).
Proof. unfold get_registers. intros ->. by rewrite decide_True. Qed.

(** A STORE puts nothing into [produced]. *)
Lemma produced_store (i : instr) (l : list instr) :
  op i = "STORE" → produced (i :: l) = produced l.
Proof.
  intros Hop. apply set_eq. intros r. rewrite !elem_of_produced.
  split; intros (j & Hj & Hne & Hd); exists j; (split; [|done]).
  - apply elem_of_cons in Hj as [->|Hj]; [done|done].
  - by right.
Qed.

(** In [execute.py] the operand of a STORE is external when no other
    instruction produces it, is waited for by the scan, and gets no
    entry when the STORE is issued. *)
Lemma store_operand_is_read (i : instr) (l : list instr) :
  op i = "STORE" →
  (i ∈ l → dest i ∉ produced l → dest i ∈ external get_registers l)
  ∧ (∀ W ra c snapshot un cb' un',
       fill_bundle get_registers W ra c snapshot [] un = Ok (cb', un') →
       i ∈ cb' → not_yet ra c (dest i) = false)
  ∧ (∀ c ra, update_avail get_registers c ra [i] = ra).
Proof.
  intros Hop. split; [|split].
  - intros Hi Hn. apply elem_of_external. exists i.
    rewrite get_registers_store by done. split; [done|]. split; [left|done].
  - intros W ra c snapshot un cb' un' Hf Hi.
    apply fill_bundle_ready in Hf; [|constructor].
    rewrite Forall_forall in Hf. apply (Hf i Hi).
    rewrite get_registers_store by done. left.
  - intros c ra. apply update_avail_no_dest.
    by rewrite get_registers_store.
Qed.

(** C3, violated by [bundle.py]. Its [get_registers] has no case for
    STORE: the destination field of [store_R5] is a destination and the
    STORE has no source, where [execute.py] makes it the source. So on
    the example program of [bundle.py], with a width of 2, the STORE of
    [R5] is issued at cycle 0, in the first bundle, before the MUL that
    computes [R5] (cycle 11), and issuing it records [R5] as available
    at cycle 4. The scheduler of [execute.py] issues it last, at cycle
    13. *)
Theorem bundle_py_store_is_written :
  Bundle.get_registers store_R5 = (Some "R5", [])
  ∧ get_registers store_R5 = (None, [Some "R5"])
  ∧ Bundle.schedule_instructions 5 Bundle.program 2
    = Some (Ok [ (0, [ Instr "LOAD" (Some "R1") None None 16; store_R5 ]);
                 (4, [ Instr "ADD" (Some "R2") (Some "R1") (Some "R3") 1 ]);
                 (5, [ Instr "MOVE" (Some "R4") (Some "R2") None 32 ]);
                 (11, [ Instr "MUL" (Some "R5") (Some "R4") (Some "R6") 1 ]) ])
  ∧ update_avail Bundle.get_registers 0 ∅ [store_R5] !! Some "R5" = Some 4
  ∧ schedule_instructions 6 Bundle.program 2
    = Some (Ok [ (0, [ Instr "LOAD" (Some "R1") None None 16 ]);
                 (4, [ Instr "ADD" (Some "R2") (Some "R1") (Some "R3") 1 ]);
                 (5, [ Instr "MOVE" (Some "R4") (Some "R2") None 32 ]);
                 (11, [ Instr "MUL" (Some "R5") (Some "R4") (Some "R6") 1 ]);
                 (13, [ store_R5 ]) ]).
Proof. repeat split; vm_compute; reflexivity. Qed.

(** ** Determinism *)

(** C6. Two invocations of the scheduler on the same program and width
    give the same result, whatever the order in which each visits the
    set of external registers and whatever fuel each is given (enough
    to return); and replaying the two schedules on the same inputs gives
    the same register file, and the same output, or the same failure. *)
Theorem schedule_and_replay_deterministic (instructions : list instr)
    (bundle_size : Z) (order1 order2 : list pyname) (fuel1 fuel2 : nat)
    (r1 r2 : result (list bundle)) :
  order1 ≡ₚ elements (external get_registers instructions) →
  order2 ≡ₚ elements (external get_registers instructions) →
  schedule_ordered get_registers order1 fuel1 instructions bundle_size
    = Some r1 →
  schedule_ordered get_registers order2 fuel2 instructions bundle_size
    = Some r2 →
  r1 = r2
  ∧ ∀ (bs1 bs2 : list bundle) (inputs : gmap pyname Z),
      r1 = Ok bs1 → r2 = Ok bs2 →
      run_bundle_loop bs1 inputs ∅ 0 = run_bundle_loop bs2 inputs ∅ 0
      ∧ run_bundle bs1 inputs = run_bundle bs2 inputs.
Proof.
  intros Ho1 Ho2 H1 H2. unfold schedule_ordered in *.
  rewrite (init_reg_avail_perm _ _ Ho1) in H1.
  rewrite (init_reg_avail_perm _ _ Ho2) in H2.
  assert (r1 = r2) as <- by (by eapply sched_loop_fuel_agree).
  split; [done|]. intros bs1 bs2 inputs -> [= <-]. done.
Qed.

Lemma schedule_and_replay_deterministic_witness :
  Ok program_schedule = Ok program_schedule
  ∧ ∀ (bs1 bs2 : list bundle) (inputs : gmap pyname Z),
      Ok program_schedule = Ok bs1 → Ok program_schedule = Ok bs2 →
      run_bundle_loop bs1 inputs ∅ 0 = run_bundle_loop bs2 inputs ∅ 0
      ∧ run_bundle bs1 inputs = run_bundle bs2 inputs.
Proof.
  apply (schedule_and_replay_deterministic program 2
           (elements (external get_registers program))
           (reverse (elements (external get_registers program))) 5 9).
  - reflexivity.
  - apply reverse_Permutation.
  - vm_compute. reflexivity.
  - vm_compute. reflexivity.
Defined.

(** ** Further properties of the scheduler *)

Section SchedulerMore.

Variable get_regs : instr → pyname * list pyname.

(** *** The scheduler raises nothing *)

Lemma sched_loop_no_raise fuel bundle_size reg_avail un bundles cycle (e : exn) :
  sched_loop get_regs fuel bundle_size reg_avail un bundles cycle
  ≠ Some (Raise e).
Proof.
  revert reg_avail un bundles cycle.
  induction fuel as [|fuel IH]; intros ra un bundles cycle; [done|].
  cbn [sched_loop]. destruct un as [|i0 un0]; [done|].
  destruct (fill_bundle_total get_regs bundle_size ra cycle
              (i0 :: un0) [] (i0 :: un0)) as (cb & un' & ->); [done|].
  destruct cb as [|c0 cb0]; [apply IH|]. simpl. apply IH.
Qed.

(** *** No bundle is empty *)

Lemma sched_loop_nonempty fuel bundle_size reg_avail un bundles cycle bs :
  Forall (λ b : bundle, b.2 ≠ []) bundles →
  sched_loop get_regs fuel bundle_size reg_avail un bundles cycle
    = Some (Ok bs) →
  Forall (λ b : bundle, b.2 ≠ []) bs.
Proof.
  revert reg_avail un bundles cycle.
  induction fuel as [|fuel IH]; intros ra un bundles cycle Hb H; [done|].
  cbn [sched_loop] in H. destruct un as [|i0 un0]; [by inversion H; subst|].
  destruct (fill_bundle _ _ _ _ _ _ _) as [[cb un']|e]; [|done].
  destruct cb as [|c0 cb0]; [by eapply IH|].
  destruct (py_max _) as [bl|e]; [|done].
  eapply IH; [|exact H]. apply Forall_app. split; [done|].
  by apply Forall_singleton.
Qed.

(** *** Program order inside a bundle *)

Lemma py_remove_sublist (x : instr) (l l' : list instr) :
  py_remove x l = Ok l' → l' `sublist_of` l.
Proof.
  revert l'. induction l as [|y l IH]; intros l' H; simpl in H; [done|].
  destruct (decide (x = y)) as [->|Hne].
  - inversion H; subst. by apply sublist_cons.
  - destruct (py_remove x l) as [l''|e]; simpl in H; [|done].
    inversion H; subst. apply sublist_skip. by apply IH.
Qed.

Lemma fill_bundle_sublist bundle_size reg_avail cycle snapshot cb un cb' un' :
  fill_bundle get_regs bundle_size reg_avail cycle snapshot cb un
    = Ok (cb', un') →
  un' `sublist_of` un
  ∧ ∃ k, cb' = cb ++ k ∧ k `sublist_of` snapshot.
Proof.
  revert cb un. induction snapshot as [|i s IH]; intros cb un H; simpl in H.
  { inversion H; subst. split; [done|]. exists []. by rewrite app_nil_r. }
  case_bool_decide.
  { inversion H; subst. split; [done|]. exists [].
    split; [by rewrite app_nil_r|apply sublist_nil_l]. }
  destruct (get_regs i) as [d srcs].
  assert (∀ cb un, fill_bundle get_regs bundle_size reg_avail cycle s cb un
                   = Ok (cb', un') →
                   un' `sublist_of` un
                   ∧ ∃ k, cb' = cb ++ k ∧ k `sublist_of` i :: s) as Hskip.
  { intros cb0 un0 Hf0. destruct (IH _ _ Hf0) as (Hun & k & -> & Hk).
    split; [done|]. exists k. split; [done|by apply sublist_cons]. }
  destruct (existsb _ srcs); [by apply Hskip|].
  destruct (existsb _ cb); [by apply Hskip|].
  destruct (py_remove i un) as [un1|e] eqn:Er; simpl in H; [|done].
  destruct (IH _ _ H) as (Hun & k & -> & Hk). split.
  - etrans; [exact Hun|]. by eapply py_remove_sublist.
  - exists (i :: k). split; [by rewrite <- app_assoc|by apply sublist_skip].
Qed.

Lemma sched_loop_sublist prog fuel bundle_size reg_avail un bundles cycle bs :
  un `sublist_of` prog →
  Forall (λ b : bundle, b.2 `sublist_of` prog) bundles →
  sched_loop get_regs fuel bundle_size reg_avail un bundles cycle
    = Some (Ok bs) →
  Forall (λ b : bundle, b.2 `sublist_of` prog) bs.
Proof.
  revert reg_avail un bundles cycle.
  induction fuel as [|fuel IH]; intros ra un bundles cycle Hun Hb H; [done|].
  cbn [sched_loop] in H. destruct un as [|i0 un0]; [by inversion H; subst|].
  destruct (fill_bundle _ _ _ _ _ _ _) as [[cb un']|e] eqn:Ef; [|done].
  apply fill_bundle_sublist in Ef as (Hun' & k & Hk & Hsub). simpl in Hk.
  subst k.
  assert (un' `sublist_of` prog) by (by etrans).
  destruct cb as [|c0 cb0]; [by eapply IH|].
  destruct (py_max _) as [bl|e]; [|done].
  eapply IH; [done| |exact H]. apply Forall_app. split; [done|].
  apply Forall_singleton. simpl. by etrans.
Qed.

(** *** Bundles do not overlap in time *)

Lemma foldl_max_upper (x : Z) (l : list Z) (y : Z) :
  y ∈ x :: l → y ≤ foldl Z.max x l.
Proof.
  revert x. induction l as [|z l IH]; intros x Hy; simpl.
  - apply list_elem_of_singleton in Hy. lia.
  - apply elem_of_cons in Hy as [->|Hy].
    + etrans; [|apply foldl_max_le]. lia.
    + apply elem_of_cons in Hy as [->|Hy].
      * etrans; [|apply foldl_max_le]. lia.
      * apply IH. by right.
Qed.

Lemma py_max_upper (l : list Z) (m y : Z) :
  py_max l = Ok m → y ∈ l → y ≤ m.
Proof.
  destruct l as [|x l]; [done|]. simpl. intros [= <-] Hy.
  by apply foldl_max_upper.
Qed.

Lemma sched_loop_no_overlap fuel bundle_size reg_avail un bundles cycle bs :
  (∀ k b1 b2, bundles !! k = Some b1 → bundles !! S k = Some b2 →
              completes_before b1 b2) →
  (∀ k b, bundles !! k = Some b → S k = length bundles →
          ∀ i, i ∈ b.2 → b.1 + compute_latency i ≤ cycle) →
  sched_loop get_regs fuel bundle_size reg_avail un bundles cycle
    = Some (Ok bs) →
  ∀ k b1 b2, bs !! k = Some b1 → bs !! S k = Some b2 →
             completes_before b1 b2.
Proof.
  revert reg_avail un bundles cycle.
  induction fuel as [|fuel IH]; intros ra un bundles cycle Hpairs Hlast H;
    [done|].
  cbn [sched_loop] in H. destruct un as [|i0 un0]; [by inversion H; subst|].
  destruct (fill_bundle _ _ _ _ _ _ _) as [[cb un']|e]; [|done].
  destruct cb as [|c0 cb0].
  { eapply IH; [exact Hpairs| |exact H].
    intros k b Hk Hlen i Hi. specialize (Hlast k b Hk Hlen i Hi). lia. }
  destruct (py_max _) as [bl|e] eqn:Em; [|done].
  eapply IH; [| |exact H].
  - intros k b1 b2 H1 H2.
    apply lookup_snoc_Some in H2 as [[Hlt H2]|[Heq <-]].
    + apply lookup_snoc_Some in H1 as [[_ H1]|[? _]]; [|lia].
      by apply (Hpairs k).
    + apply lookup_snoc_Some in H1 as [[_ H1]|[? _]]; [|lia].
      intros i Hi. simpl. by apply (Hlast k b1).
  - intros k b Hk Hlen i Hi. rewrite length_app in Hlen. simpl in Hlen.
    apply lookup_snoc_Some in Hk as [[? _]|[_ <-]]; [lia|].
    simpl in Hi |- *. assert (compute_latency i ≤ bl); [|lia].
    eapply py_max_upper; [exact Em|]. by apply list_elem_of_fmap_2.
Qed.

(** *** Operands are valid when an instruction is issued *)

Lemma update_avail_lookup cycle reg_avail cb (r : pyname) (t : Z) :
  update_avail get_regs cycle reg_avail cb !! r = Some t →
  reg_avail !! r = Some t
  ∨ ∃ (j : instr) (d : string),
      j ∈ cb ∧ r = Some d ∧ writes get_regs j d
      ∧ t = cycle + compute_latency j.
Proof.
  unfold update_avail. revert reg_avail.
  induction cb as [|b cb IH]; intros ra H; simpl in H; [by left|].
  apply IH in H as [H|(j & d & Hj & -> & Hw & ->)].
  - destruct (get_regs b).1 as [d|] eqn:Eb; [|by left].
    destruct (decide (Some d = r)) as [<-|Hne].
    + rewrite lookup_insert_eq in H. injection H as <-.
      right. exists b, d. split; [left|done].
    + rewrite lookup_insert_ne in H by done. by left.
  - right. exists j, d. split; [by right|done].
Qed.

Lemma not_yet_false reg_avail (c : Z) (r : pyname) :
  not_yet reg_avail c r = false → ∃ t, reg_avail !! r = Some t ∧ t ≤ c.
Proof.
  unfold not_yet. destruct (reg_avail !! r) as [t|]; [|done].
  rewrite bool_decide_eq_false. intros Ht. exists t. split; [done|lia].
Qed.

Lemma supplied_snoc prog bundles (b : bundle) k c r :
  supplied get_regs prog bundles k c r →
  supplied get_regs prog (bundles ++ [b]) k c r.
Proof.
  intros [H|(k' & c' & b' & j & d & Hk & Hl & H)]; [by left|].
  right. exists k', c', b', j, d. split; [done|]. split; [|done].
  by apply lookup_app_l_Some.
Qed.

Lemma sched_loop_supplied prog fuel bundle_size reg_avail un bundles cycle bs :
  entries_justified get_regs prog bundles reg_avail →
  (∀ k c b i r, bundles !! k = Some (c, b) → i ∈ b → r ∈ (get_regs i).2 →
                supplied get_regs prog bundles k c r) →
  sched_loop get_regs fuel bundle_size reg_avail un bundles cycle
    = Some (Ok bs) →
  ∀ k c b i r, bs !! k = Some (c, b) → i ∈ b → r ∈ (get_regs i).2 →
               supplied get_regs prog bs k c r.
Proof.
  revert reg_avail un bundles cycle.
  induction fuel as [|fuel IH]; intros ra un bundles cycle Hra Hq H; [done|].
  cbn [sched_loop] in H. destruct un as [|i0 un0]; [by inversion H; subst|].
  destruct (fill_bundle _ _ _ _ _ _ _) as [[cb un']|e] eqn:Ef; [|done].
  apply fill_bundle_ready in Ef; [|constructor].
  destruct cb as [|c0 cb0]; [by eapply IH|].
  destruct (py_max _) as [bl|e]; [|done].
  eapply IH; [| |exact H].
  - intros r t Ht. apply update_avail_lookup in Ht
      as [Ht|(j & d & Hj & -> & Hw & ->)].
    + destruct (Hra r t Ht) as [?|(k' & c' & b' & j & d & Hl & ?)]; [by left|].
      right. exists k', c', b', j, d. split; [|done].
      by apply lookup_app_l_Some.
    + right. exists (length bundles), cycle, (c0 :: cb0), j, d.
      split; [|done]. by rewrite list_lookup_middle.
  - intros k c b i r Hk Hi Hr.
    apply lookup_snoc_Some in Hk as [[_ Hk]|[-> [= <- <-]]].
    { apply supplied_snoc. by eapply Hq. }
    rewrite Forall_forall in Ef.
    destruct (not_yet_false _ _ _ (Ef i Hi r Hr)) as (t & Ht & Hle).
    destruct (Hra r t Ht) as [[? ->]|(k' & c' & b' & j & d & Hl & ? & ? & ? & ->)].
    + by left.
    + right. exists k', c', b', j, d.
      split; [by eapply lookup_lt_Some|].
      split; [by apply lookup_app_l_Some|done].
Qed.

Lemma init_entries_justified prog :
  entries_justified get_regs prog []
    (init_reg_avail (elements (external get_regs prog))).
Proof.
  intros r t. rewrite init_reg_avail_lookup.
  case_decide as Hin; [|done]. intros [= <-]. left.
  split; [by apply elem_of_elements|done].
Qed.

(** *** Dependency cycles and widths without room *)

Lemma schedule_with_waits_for_ever prog fuel bundle_size :
  prog ≠ [] →
  (∀ i, i ∈ prog → ∃ r, r ∈ (get_regs i).2 ∧ r ∈ produced prog) →
  schedule_with get_regs fuel prog bundle_size = None.
Proof.
  intros Hne Hw. apply sched_loop_stuck; [|done].
  intros i Hi. destruct (Hw i Hi) as (r & Hr & Hp). exists r. split; [done|].
  rewrite init_reg_avail_lookup. rewrite decide_False; [done|].
  rewrite elem_of_elements, elem_of_external. by intros (_ & _ & _ & ?).
Qed.

End SchedulerMore.

(** ** Further properties of the executor *)

Lemma execute_instruction_undefined (i : instr)
    (registers inputs : gmap pyname Z) :
  op i ∉ defined_kinds →
  execute_instruction i registers inputs
  = Raise (ValueError ("Unknown operation: " +:+ op i)).
Proof.
  intros Hop. unfold execute_instruction.
  assert (∀ k, k ∈ defined_kinds → op i ≠ k) as Hne.
  { intros k Hk Heq. apply Hop. by rewrite Heq. }
  rewrite !decide_False; [done|..]; apply Hne; set_solver.
Qed.

Ltac exec_kind i Hop :=
  unfold execute_instruction, exec_reads, write_key;
  destruct i as [o d s1 s2 sz]; simpl in Hop |- *; subst o; simpl.

(** An instruction that succeeds writes one register, [write_key]. *)
Lemma execute_instruction_writes (i : instr)
    (registers inputs registers' : gmap pyname Z) :
  execute_instruction i registers inputs = Ok registers' →
  ∃ v, registers' = <[write_key i := v]> registers.
Proof.
  destruct (kind_cases (op i))
    as [Hop|[Hop|[Hop|[Hop|[Hop|[Hop|Hop]]]]]];
    [exec_kind i Hop; unfold getitem;
     repeat (destruct (_ !! _); simpl); try done;
     intros [= <-]; eauto ..|].
  by rewrite execute_instruction_undefined.
Qed.

(** The registers read by an instruction of an undefined kind: none. *)
Lemma exec_reads_undefined (i : instr) :
  op i ∉ defined_kinds → exec_reads i = [].
Proof.
  intros Hop. unfold exec_reads.
  assert (∀ k, k ∈ defined_kinds → op i ≠ k) as Hne.
  { intros k Hk Heq. apply Hop. by rewrite Heq. }
  rewrite decide_False by (apply Hne; set_solver).
  rewrite decide_False.
  2:{ intros Hin. apply Hop. unfold defined_kinds. set_solver. }
  rewrite decide_False by (apply Hne; set_solver). done.
Qed.

(** An instruction that succeeds found every register it reads. *)
Lemma execute_instruction_reads_defined (i : instr)
    (registers inputs registers' : gmap pyname Z) (r : pyname) :
  execute_instruction i registers inputs = Ok registers' →
  r ∈ exec_reads i → is_Some (registers !! r).
Proof.
  destruct (kind_cases (op i))
    as [Hop|[Hop|[Hop|[Hop|[Hop|[Hop|Hop]]]]]];
    [exec_kind i Hop; unfold getitem; intros H Hr;
     repeat (apply elem_of_cons in Hr as [->|Hr];
             [repeat (destruct (_ !! _); simpl in H); by eauto|]);
     by apply elem_of_nil in Hr ..|].
  rewrite exec_reads_undefined by done. intros _ Hr.
  by apply elem_of_nil in Hr.
Qed.

(** A named register read by the executor is an operand of the
    instruction for the scheduler of [execute.py]. *)
Lemma exec_reads_sources (i : instr) (r : string) :
  Some r ∈ exec_reads i → Some r ∈ (get_registers i).2.
Proof.
  unfold exec_reads, get_registers.
  destruct (decide (op i = "STORE")); [done|]. simpl.
  assert (∀ l : list pyname, Some r ∈ l →
            Some r ∈ filter (λ r : pyname, r ≠ None) l) as Hf.
  { intros l Hl. by apply list_elem_of_filter. }
  destruct (decide (op i ∈ ["ADD"; "SUB"; "MUL"])); [apply Hf|].
  destruct (decide (op i = "MOVE")).
  - intros Hr. apply Hf. apply list_elem_of_singleton in Hr as <-. left.
  - intros Hr. by apply elem_of_nil in Hr.
Qed.

(** *** What a run leaves untouched and what it defines *)

Lemma exec_bundle_frame_aux (l : list instr)
    (registers inputs registers' : gmap pyname Z) (k : pyname) :
  exec_bundle l registers inputs = Ok registers' →
  k ∉ write_key <$> l →
  registers' !! k = registers !! k.
Proof.
  revert registers. induction l as [|i l IH]; intros R H Hk; simpl in H.
  { by inversion H. }
  destruct (execute_instruction i R inputs) as [Ra|e] eqn:Ei; [|done].
  simpl in H. rewrite fmap_cons in Hk. apply not_elem_of_cons in Hk as [Hne Hk].
  rewrite (IH _ H Hk).
  apply execute_instruction_writes in Ei as [v ->].
  by rewrite lookup_insert_ne.
Qed.

Lemma exec_bundle_defined_aux (l : list instr)
    (registers inputs registers' : gmap pyname Z) (k : pyname) :
  exec_bundle l registers inputs = Ok registers' →
  is_Some (registers' !! k)
  ↔ is_Some (registers !! k) ∨ k ∈ write_key <$> l.
Proof.
  revert registers. induction l as [|i l IH]; intros R H; simpl in H.
  { inversion H; subst. rewrite fmap_nil, elem_of_nil. tauto. }
  destruct (execute_instruction i R inputs) as [Ra|e] eqn:Ei; [|done].
  simpl in H. rewrite (IH _ H), fmap_cons, elem_of_cons.
  apply execute_instruction_writes in Ei as [v ->].
  rewrite lookup_insert. case_decide as Hk.
  - subst k. split; [intros _; right; by left|intros _; left; by eexists].
  - split; [tauto|]. intros [?|[?|?]]; [tauto|congruence|tauto].
Qed.

(** *** Runs below a final register file *)

Lemma read_agree (R R' final : gmap pyname Z) (k : pyname) (v : Z) :
  R' !! k = Some v → R' ⊆ final → R ⊆ final → is_Some (R !! k) →
  R !! k = Some v.
Proof.
  intros Hv HR' HR [w Hw]. rewrite Hw. f_equal.
  pose proof (lookup_weaken _ _ _ _ Hv HR').
  pose proof (lookup_weaken _ _ _ _ Hw HR). congruence.
Qed.

(** An instruction that runs below [final] runs the same from any
    register file below [final] that defines what it reads: it writes
    the value that [final] holds. *)
Lemma execute_instruction_below (i : instr)
    (inputs final R : gmap pyname Z) :
  runs_below inputs final i →
  R ⊆ final →
  (∀ r, r ∈ exec_reads i → is_Some (R !! r)) →
  ∃ v, execute_instruction i R inputs = Ok (<[write_key i := v]> R)
       ∧ final !! write_key i = Some v.
Proof.
  intros (R' & R'' & HR' & HR'' & Hrun) HR Hreads.
  assert (∀ k v, R' !! k = Some v → k ∈ exec_reads i → R !! k = Some v)
    as Hag.
  { intros k v Hv Hk. eapply read_agree; eauto. }
  assert (∀ v, R'' = <[write_key i := v]> R' →
               final !! write_key i = Some v) as Hw.
  { intros v ->. eapply lookup_weaken; [|exact HR'']. apply lookup_insert_eq. }
  clear HR HR' HR'' Hreads. revert Hrun Hag Hw.
  destruct (kind_cases (op i))
    as [Hop|[Hop|[Hop|[Hop|[Hop|[Hop|Hop]]]]]];
    [exec_kind i Hop; unfold getitem; intros Hrun Hag Hw ..|].
  - destruct (inputs !! s1) as [v|]; [|done]. simpl in *.
    injection Hrun as <-. eauto.
  - destruct (R' !! d) as [v|] eqn:E; [|done]. simpl in Hrun.
    injection Hrun as <-. rewrite (Hag d v) by (done || set_solver).
    simpl. eauto.
  - destruct (R' !! s1) as [a|] eqn:E1; [|done]. simpl in Hrun.
    destruct (R' !! s2) as [b|] eqn:E2; [|done]. simpl in Hrun.
    injection Hrun as <-.
    rewrite (Hag s1 a), (Hag s2 b) by (done || set_solver). simpl. eauto.
  - destruct (R' !! s1) as [a|] eqn:E1; [|done]. simpl in Hrun.
    destruct (R' !! s2) as [b|] eqn:E2; [|done]. simpl in Hrun.
    injection Hrun as <-.
    rewrite (Hag s1 a), (Hag s2 b) by (done || set_solver). simpl. eauto.
  - destruct (R' !! s1) as [a|] eqn:E1; [|done]. simpl in Hrun.
    destruct (R' !! s2) as [b|] eqn:E2; [|done]. simpl in Hrun.
    injection Hrun as <-.
    rewrite (Hag s1 a), (Hag s2 b) by (done || set_solver). simpl. eauto.
  - destruct (R' !! s1) as [v|] eqn:E; [|done]. simpl in Hrun.
    injection Hrun as <-. rewrite (Hag s1 v) by (done || set_solver).
    simpl. eauto.
  - by rewrite execute_instruction_undefined.
Qed.

Lemma exec_bundle_below (l : list instr) (inputs final R : gmap pyname Z) :
  (∀ i, i ∈ l → runs_below inputs final i) →
  (∀ i r, i ∈ l → r ∈ exec_reads i → is_Some (R !! r)) →
  R ⊆ final →
  ∃ R2, exec_bundle l R inputs = Ok R2 ∧ R2 ⊆ final.
Proof.
  revert R. induction l as [|i l IH]; intros R Hrun Hreads HR; simpl.
  { by exists R. }
  destruct (execute_instruction_below i inputs final R) as (v & -> & Hv).
  { apply Hrun. left. }
  { done. }
  { intros r Hr. apply (Hreads i); [left|done]. }
  simpl. apply IH.
  - intros j Hj. apply Hrun. by right.
  - intros j r Hj Hr. rewrite lookup_insert. case_decide; [by eexists|].
    apply (Hreads j); [by right|done].
  - by apply insert_subseteq_l.
Qed.

(** Replaying bundles whose reads are all defined before their use, each
    instruction running below [final], succeeds below [final]. *)
Lemma replay_below (bs : list bundle) (inputs final R : gmap pyname Z) :
  defined_before_use R bs →
  (∀ i, i ∈ flatten bs → runs_below inputs final i) →
  R ⊆ final →
  ∃ R2, exec_bundle (flatten bs) R inputs = Ok R2 ∧ R2 ⊆ final.
Proof.
  revert R. induction bs as [|[c b] bs IH]; intros R Hdef Hrun HR.
  { by exists R. }
  unfold flatten in *. rewrite fmap_cons in *. simpl in *.
  destruct (exec_bundle_below b inputs final R) as (Rb & Eb & HRb).
  { intros i Hi. apply Hrun. apply elem_of_app. by left. }
  { intros i r Hi Hr.
    destruct (Hdef 0%nat c b i r eq_refl Hi Hr) as [?|(k' & ? & ? & ? & ? & _)];
      [done|lia]. }
  { done. }
  rewrite exec_bundle_app, Eb. simpl. apply IH; [| |done].
  - intros k c' b' i r Hk Hi Hr.
    destruct (Hdef (S k) c' b' i r Hk Hi Hr)
      as [Hs|(k' & c'' & b'' & j & Hlt & Hk' & Hj & Hw)].
    + left. apply (exec_bundle_defined_aux _ _ _ _ r Eb). by left.
    + destruct k' as [|k'].
      * left. injection Hk' as <- <-.
        apply (exec_bundle_defined_aux _ _ _ _ r Eb). right.
        rewrite <- Hw. by apply list_elem_of_fmap_2.
      * right. exists k', c'', b'', j. split; [lia|done].
  - intros i Hi. apply Hrun. apply elem_of_app. by right.
Qed.

(** In a run whose instructions write pairwise distinct registers, all
    undefined at the start, the register file only grows, and every
    instruction runs below the final register file. *)
Lemma sequential_run_below (l : list instr) (inputs R final : gmap pyname Z) :
  NoDup (write_key <$> l) →
  (∀ k, k ∈ write_key <$> l → R !! k = None) →
  exec_bundle l R inputs = Ok final →
  R ⊆ final ∧ ∀ i, i ∈ l → runs_below inputs final i.
Proof.
  revert R. induction l as [|i l IH]; intros R Hnd Hfresh H; simpl in H.
  { inversion H; subst. split; [done|]. intros i Hi.
    by apply elem_of_nil in Hi. }
  destruct (execute_instruction i R inputs) as [Ra|e] eqn:Ei; [|done].
  simpl in H. rewrite fmap_cons in Hnd, Hfresh.
  apply NoDup_cons in Hnd as [Hni Hnd].
  destruct (execute_instruction_writes _ _ _ _ Ei) as [v ->].
  destruct (IH (<[write_key i := v]> R) Hnd) as [Hsub Hl]; [|exact H|].
  { intros k Hk. rewrite lookup_insert_ne; [|by intros <-].
    apply Hfresh. by right. }
  assert (R ⊆ <[write_key i := v]> R) as HR.
  { apply insert_subseteq, Hfresh. left. }
  split; [by etrans|].
  intros j Hj. apply elem_of_cons in Hj as [->|Hj]; [|by apply Hl].
  exists R, (<[write_key i := v]> R). split; [by etrans|done].
Qed.

(** ** Scheduling preserves the sequential run *)

Lemma elem_of_flatten (bs : list bundle) (k : nat) (c : Z) (b : list instr)
    (i : instr) :
  bs !! k = Some (c, b) → i ∈ b → i ∈ flatten bs.
Proof.
  revert k. induction bs as [|[c0 b0] bs IH]; intros k Hk Hi.
  { by rewrite lookup_nil in Hk. }
  unfold flatten. rewrite fmap_cons. simpl. apply elem_of_app.
  destruct k as [|k]; simpl in Hk.
  - injection Hk as -> ->. by left.
  - right. by apply (IH k).
Qed.

Lemma writes_write_key (j : instr) (d : string) :
  writes get_registers j d → write_key j = Some d ∧ op j ≠ "STORE".
Proof.
  unfold writes, get_registers, write_key.
  destruct (decide (op j = "STORE")); [done|]. simpl. by intros ->.
Qed.

Lemma write_key_produced (prog : list instr) (j : instr) (s : string) :
  j ∈ prog → write_key j = Some s → s ≠ "OUTPUT" →
  Some s ∈ produced prog.
Proof.
  unfold write_key. intros Hj Hw Hs. apply elem_of_produced.
  destruct (decide (op j = "STORE")); [congruence|]. by exists j.
Qed.

(** The schedule of a single-assignment program whose sequential run
    succeeds defines every register before its use. *)
Lemma schedule_defined_before_use (prog : list instr)
    (inputs final : gmap pyname Z) (bundle_size : Z) (fuel : nat)
    (bs : list bundle) :
  NoDup (write_key <$> prog) →
  (∀ i r, i ∈ prog → r ∈ exec_reads i → r ≠ None ∧ r ≠ Some "OUTPUT") →
  exec_bundle prog ∅ inputs = Ok final →
  schedule_instructions fuel prog bundle_size = Some (Ok bs) →
  defined_before_use ∅ bs.
Proof.
  intros Hnd Hreads Hseq Hs k c b i r Hk Hi Hr. right.
  pose proof (sched_loop_perm _ _ _ _ _ _ _ _ Hs) as Hperm. simpl in Hperm.
  fold (flatten bs) in Hperm.
  assert (i ∈ prog) as Hip.
  { rewrite <- Hperm. by eapply elem_of_flatten. }
  destruct (Hreads i r Hip Hr) as [Hnone Hout].
  destruct r as [s|]; [|done].
  assert (supplied get_registers prog bs k c (Some s)) as Hsup.
  { eapply (sched_loop_supplied get_registers prog fuel bundle_size
              (init_reg_avail (elements (external get_registers prog)))
              prog [] 0 bs);
      [apply init_entries_justified| |exact Hs|exact Hk|exact Hi
      |by apply exec_reads_sources].
    intros ? ? ? ? ? Hnil. by rewrite lookup_nil in Hnil. }
  destruct Hsup
    as [[Hext _]|(k' & c' & b' & j & d & Hlt & Hk' & Hj & Hd & Hw & _)].
  - exfalso. apply elem_of_external in Hext as (_ & _ & _ & Hnp).
    apply Hnp.
    destruct (sequential_run_below prog inputs ∅ final Hnd) as [_ Hbelow];
      [done|done|].
    destruct (Hbelow i Hip) as (R' & R'' & HR' & _ & Hrun).
    pose proof (execute_instruction_reads_defined _ _ _ _ _ Hrun Hr) as Hdef.
    eapply lookup_weaken_is_Some in Hdef; [|exact HR'].
    apply (exec_bundle_defined_aux _ _ _ _ (Some s) Hseq) in Hdef
      as [[? Hemp]|Hin]; [by rewrite lookup_empty in Hemp|].
    apply list_elem_of_fmap in Hin as (j & Hj & Hjp).
    eapply write_key_produced; [exact Hjp|done|congruence].
  - exists k', c', b', j. split; [done|]. split; [done|]. split; [done|].
    injection Hd as ->. by apply writes_write_key.
Qed.

Lemma schedule_replays_to_final (prog : list instr)
    (inputs final : gmap pyname Z) (bundle_size : Z) (fuel : nat)
    (bs : list bundle) :
  NoDup (write_key <$> prog) →
  (∀ i r, i ∈ prog → r ∈ exec_reads i → r ≠ None ∧ r ≠ Some "OUTPUT") →
  exec_bundle prog ∅ inputs = Ok final →
  schedule_instructions fuel prog bundle_size = Some (Ok bs) →
  exec_bundle (flatten bs) ∅ inputs = Ok final.
Proof.
  intros Hnd Hreads Hseq Hs.
  pose proof (sched_loop_perm _ _ _ _ _ _ _ _ Hs) as Hperm. simpl in Hperm.
  fold (flatten bs) in Hperm.
  destruct (sequential_run_below prog inputs ∅ final Hnd) as [_ Hbelow];
    [done|done|].
  destruct (replay_below bs inputs final ∅) as (R2 & Hrun & Hsub).
  { by eapply schedule_defined_before_use. }
  { intros i Hi. apply Hbelow. by rewrite <- Hperm. }
  { apply map_empty_subseteq. }
  rewrite Hrun. f_equal. apply (anti_symm (⊆)); [done|].
  apply map_subseteq_spec. intros k v Hv.
  assert (is_Some (R2 !! k)) as [w Hw].
  { apply (exec_bundle_defined_aux _ _ _ _ k Hrun). right. rewrite Hperm.
    assert (is_Some (final !! k)) as Hk by (by eexists).
    apply (exec_bundle_defined_aux _ _ _ _ k Hseq) in Hk
      as [[? Hemp]|Hin]; [by rewrite lookup_empty in Hemp|done]. }
  rewrite Hw. f_equal.
  pose proof (lookup_weaken _ _ _ _ Hw Hsub). congruence.
Qed.

(** ** The further properties, for [execute.py] *)

(** X1. [schedule_instructions] raises no exception, whatever the
    program, the width and the fuel: [list.remove] always finds the
    instruction and [max] is never given an empty bundle. *)
Theorem schedule_never_raises (fuel : nat) (instructions : list instr)
    (bundle_size : Z) (e : exn) :
  schedule_instructions fuel instructions bundle_size ≠ Some (Raise e).
Proof. apply sched_loop_no_raise. Qed.

(** X2. No bundle of a returned schedule is empty. *)
Theorem schedule_bundles_nonempty (fuel : nat) (instructions : list instr)
    (bundle_size : Z) (bs : list bundle) :
  schedule_instructions fuel instructions bundle_size = Some (Ok bs) →
  Forall (λ b : bundle, b.2 ≠ []) bs.
Proof. intros H. eapply sched_loop_nonempty; [|exact H]. constructor. Qed.

Lemma schedule_bundles_nonempty_witness :
  Forall (λ b : bundle, b.2 ≠ []) program_schedule.
Proof.
  apply (schedule_bundles_nonempty 5 program 2 program_schedule).
  vm_compute. reflexivity.
Defined.

(** X3. With a bundle width of 1 every bundle holds exactly one
    instruction, and the schedule has as many bundles as the program has
    instructions. *)
Theorem schedule_width_one (fuel : nat) (instructions : list instr)
    (bs : list bundle) :
  schedule_instructions fuel instructions 1 = Some (Ok bs) →
  Forall (λ b : bundle, ∃ i, b.2 = [i]) bs
  ∧ length bs = length instructions.
Proof.
  intros H.
  assert (Forall (λ b : bundle, ∃ i, b.2 = [i]) bs) as Hone.
  { pose proof (sched_loop_nonempty _ _ _ _ _ _ _ _ (Forall_nil_2 _) H) as Hne.
    pose proof (sched_loop_bundles_ok _ _ _ _ _ _ _ _ (Forall_nil_2 _) H) as Hle.
    rewrite Forall_forall in Hne, Hle. apply Forall_forall. intros b Hb.
    specialize (Hne b Hb). destruct (Hle b Hb) as [Hlen _].
    destruct b.2 as [|i [|i' l]]; [done|by exists i|simpl in Hlen; lia]. }
  split; [done|].
  apply sched_loop_perm in H. simpl in H.
  rewrite <- (Permutation_length H). clear H.
  induction Hone as [|[c b] bs [i Hi] _ IH]; [done|].
  simpl in *. subst b. simpl. by rewrite IH.
Qed.

Lemma schedule_width_one_witness :
  Forall (λ b : bundle, ∃ i, b.2 = [i]) program_schedule_1
  ∧ length program_schedule_1 = length program.
Proof.
  apply (schedule_width_one 7 program program_schedule_1).
  vm_compute. reflexivity.
Defined.

(** X4. The instructions of every bundle are in program order: a bundle
    is a subsequence of the program. *)
Theorem schedule_bundles_in_program_order (fuel : nat)
    (instructions : list instr) (bundle_size : Z) (bs : list bundle) :
  schedule_instructions fuel instructions bundle_size = Some (Ok bs) →
  Forall (λ b : bundle, b.2 `sublist_of` instructions) bs.
Proof.
  intros H. eapply sched_loop_sublist; [| |exact H]; [done|constructor].
Qed.

Lemma schedule_bundles_in_program_order_witness :
  Forall (λ b : bundle, b.2 `sublist_of` program) program_schedule.
Proof.
  apply (schedule_bundles_in_program_order 5 program 2 program_schedule).
  vm_compute. reflexivity.
Defined.

(** X5. Bundles do not overlap in time: every instruction of a bundle
    has completed (start cycle plus latency) when the next bundle of the
    schedule starts. *)
Theorem schedule_bundles_do_not_overlap (fuel : nat)
    (instructions : list instr) (bundle_size : Z) (bs : list bundle)
    (k : nat) (b1 b2 : bundle) :
  schedule_instructions fuel instructions bundle_size = Some (Ok bs) →
  bs !! k = Some b1 → bs !! S k = Some b2 →
  completes_before b1 b2.
Proof.
  intros H. eapply sched_loop_no_overlap; [| |exact H].
  - intros ? ? ? Hnil. by rewrite lookup_nil in Hnil.
  - intros ? ? Hnil. by rewrite lookup_nil in Hnil.
Qed.

Lemma schedule_bundles_do_not_overlap_witness :
  completes_before
    (0, [ Instr "LOAD" (Some "R1") (Some "input0") None 16;
          Instr "LOAD" (Some "R2") (Some "input1") None 16 ])
    (4, [ Instr "ADD" (Some "R3") (Some "R1") (Some "R2") 1;
          Instr "LOAD" (Some "R4") (Some "input2") None 16 ]).
Proof.
  apply (schedule_bundles_do_not_overlap 5 program 2 program_schedule 0).
  - vm_compute. reflexivity.
  - reflexivity.
  - reflexivity.
Defined.

(** X6. When an instruction is issued its operands are valid: each
    operand of an instruction of a bundle starting at cycle [c] is an
    external register (and [c] is not negative), or is written by an
    instruction of an earlier bundle that has completed by cycle [c]. *)
Theorem schedule_operands_supplied (fuel : nat) (instructions : list instr)
    (bundle_size : Z) (bs : list bundle) (k : nat) (c : Z) (b : list instr)
    (i : instr) (r : pyname) :
  schedule_instructions fuel instructions bundle_size = Some (Ok bs) →
  bs !! k = Some (c, b) → i ∈ b → r ∈ (get_registers i).2 →
  supplied get_registers instructions bs k c r.
Proof.
  intros H. eapply sched_loop_supplied; [| |exact H].
  - apply init_entries_justified.
  - intros ? ? ? ? ? Hnil. by rewrite lookup_nil in Hnil.
Qed.

Lemma schedule_operands_supplied_witness :
  supplied get_registers program program_schedule 2 8 (Some "R3").
Proof.
  apply (schedule_operands_supplied 5 program 2 program_schedule 2 8
           [Instr "MUL" (Some "R5") (Some "R3") (Some "R4") 1]
           (Instr "MUL" (Some "R5") (Some "R3") (Some "R4") 1)).
  - vm_compute. reflexivity.
  - reflexivity.
  - left.
  - vm_compute. left.
Defined.

(** X7. A program, not empty, in which every instruction has an operand
    that the program produces is never scheduled: the scheduler runs for
    ever, whatever the width. A dependency cycle is the typical case. *)
Theorem schedule_waits_for_ever (instructions : list instr)
    (bundle_size : Z) (fuel : nat) :
  instructions ≠ [] →
  (∀ i, i ∈ instructions →
        ∃ r, r ∈ (get_registers i).2 ∧ r ∈ produced instructions) →
  schedule_instructions fuel instructions bundle_size = None.
Proof. apply schedule_with_waits_for_ever. Qed.

Lemma schedule_waits_for_ever_witness :
  schedule_instructions 1000 cyclic_pair 2 = None.
Proof.
  apply (schedule_waits_for_ever cyclic_pair 2 1000); [done|].
  intros i Hi. apply elem_of_cons in Hi as [->|Hi].
  - exists (Some "B"). split; vm_compute; set_solver.
  - apply list_elem_of_singleton in Hi as ->.
    exists (Some "A"). split; vm_compute; set_solver.
Defined.

(** X8. With a bundle width of zero or less the scheduler returns (the
    empty schedule) exactly when the program is empty; on any other
    program it runs for ever. *)
Theorem schedule_without_room (instructions : list instr) (bundle_size : Z) :
  bundle_size ≤ 0 →
  (∃ fuel r, schedule_instructions fuel instructions bundle_size = Some r)
  ↔ instructions = [].
Proof.
  intros HW. split.
  - intros (fuel & r & H). destruct (decide (instructions = [])); [done|].
    unfold schedule_instructions, schedule_with, schedule_ordered in H.
    by rewrite sched_loop_no_width in H.
  - intros ->. by exists 1%nat, (Ok []).
Qed.

Lemma schedule_without_room_witness :
  (∃ fuel r, schedule_instructions fuel [] (-3) = Some r) ↔ [] = @nil instr.
Proof. apply (schedule_without_room [] (-3)). lia. Defined.

(** X9. Replaying a schedule returned by [schedule_instructions] is
    executing its instructions one after the other: [run_bundle] gives
    the [OUTPUT] register of that run, or its failure, and never the
    failure of [max] on an empty bundle. *)
Theorem replay_of_schedule (fuel : nat) (instructions : list instr)
    (bundle_size : Z) (bs : list bundle) (inputs : gmap pyname Z) :
  schedule_instructions fuel instructions bundle_size = Some (Ok bs) →
  run_bundle bs inputs
  = registers ← exec_bundle (flatten bs) ∅ inputs;
    Ok (registers !! Some "OUTPUT").
Proof.
  intros H.
  pose proof (sched_loop_nonempty _ _ _ _ _ _ _ _ (Forall_nil_2 _) H) as Hne.
  pose proof (run_bundle_loop_flatten bs inputs ∅ 0 Hne) as Hflat.
  unfold run_bundle.
  destruct (run_bundle_loop bs inputs ∅ 0) as [st|e]; by rewrite Hflat.
Qed.

Lemma replay_of_schedule_witness :
  run_bundle program_schedule inputs
  = registers ← exec_bundle (flatten program_schedule) ∅ inputs;
    Ok (registers !! Some "OUTPUT").
Proof.
  apply (replay_of_schedule 5 program 2 program_schedule inputs).
  vm_compute. reflexivity.
Defined.

(** X10. A run that succeeds changes only the registers that its
    instructions write ([OUTPUT] for a STORE, the destination otherwise):
    every other register keeps its value, and the registers defined
    afterwards are those defined before and those written. *)
Theorem exec_bundle_frame (l : list instr)
    (registers inputs registers' : gmap pyname Z) :
  exec_bundle l registers inputs = Ok registers' →
  (∀ k, k ∉ write_key <$> l → registers' !! k = registers !! k)
  ∧ (∀ k, is_Some (registers' !! k)
          ↔ is_Some (registers !! k) ∨ k ∈ write_key <$> l).
Proof.
  intros H. split; intros k.
  - by apply exec_bundle_frame_aux with inputs.
  - by apply exec_bundle_defined_aux with inputs.
Qed.

Lemma exec_bundle_frame_witness :
  (∀ k, k ∉ write_key <$> program →
        program_final !! k = (∅ : gmap pyname Z) !! k)
  ∧ (∀ k, is_Some (program_final !! k)
          ↔ is_Some ((∅ : gmap pyname Z) !! k) ∨ k ∈ write_key <$> program).
Proof.
  apply (exec_bundle_frame program ∅ inputs program_final).
  vm_compute. reflexivity.
Defined.

(** X11. Scheduling preserves the sequential run. For a program whose
    instructions write pairwise distinct registers and read neither an
    absent operand nor [OUTPUT], if executing the instructions in program
    order succeeds, then executing any schedule returned by
    [schedule_instructions] gives the same register file, and
    [run_bundle] and [run_program] return its [OUTPUT] register. *)
Theorem schedule_preserves_sequential_run (instructions : list instr)
    (inputs final : gmap pyname Z) (bundle_size : Z) (fuel : nat)
    (bs : list bundle) :
  NoDup (write_key <$> instructions) →
  (∀ i r, i ∈ instructions → r ∈ exec_reads i →
          r ≠ None ∧ r ≠ Some "OUTPUT") →
  exec_bundle instructions ∅ inputs = Ok final →
  schedule_instructions fuel instructions bundle_size = Some (Ok bs) →
  exec_bundle (flatten bs) ∅ inputs = Ok final
  ∧ run_bundle bs inputs = Ok (final !! Some "OUTPUT")
  ∧ run_program fuel instructions inputs bundle_size
    = Some (Ok (final !! Some "OUTPUT")).
Proof.
  intros Hnd Hreads Hseq Hs.
  pose proof (schedule_replays_to_final _ _ _ _ _ _ Hnd Hreads Hseq Hs) as Hrun.
  pose proof (sched_loop_nonempty _ _ _ _ _ _ _ _ (Forall_nil_2 _) Hs) as Hne.
  pose proof (run_bundle_loop_flatten bs inputs ∅ 0 Hne) as Hflat.
  split; [done|].
  destruct (run_bundle_loop bs inputs ∅ 0) as [[R c]|e] eqn:El;
    rewrite Hrun in Hflat; [|done].
  injection Hflat as <-. split.
  - unfold run_bundle. by rewrite El.
  - unfold run_program. rewrite Hs, run_program_loop_eq, El. done.
Qed.

Lemma program_reads_named :
  ∀ i r, i ∈ program → r ∈ exec_reads i → r ≠ None ∧ r ≠ Some "OUTPUT".
Proof.
  assert (Forall (λ i, Forall (λ r : pyname, r ≠ None ∧ r ≠ Some "OUTPUT")
                              (exec_reads i)) program) as H.
  { repeat constructor; done. }
  intros i r Hi Hr. rewrite Forall_forall in H. specialize (H i Hi).
  rewrite Forall_forall in H. by apply H.
Qed.

Lemma schedule_preserves_sequential_run_witness :
  exec_bundle (flatten program_schedule) ∅ inputs = Ok program_final
  ∧ run_bundle program_schedule inputs
    = Ok (program_final !! Some "OUTPUT")
  ∧ run_program 5 program inputs 2
    = Some (Ok (program_final !! Some "OUTPUT")).
Proof.
  apply (schedule_preserves_sequential_run program inputs program_final 2 5
           program_schedule).
  - apply (bool_decide_unpack _). vm_compute. exact I.
  - exact program_reads_named.
  - vm_compute. reflexivity.
  - vm_compute. reflexivity.
Defined.

(** ** A sequential run that succeeds is scheduled and replayed *)

Lemma first_writer_lt (pre rest : list instr) (s : string) :
  Some s ∈ write_key <$> pre →
  (first_writer (pre ++ rest) s < length pre)%nat.
Proof.
  induction pre as [|i pre IH]; intros Hin; [by apply elem_of_nil in Hin|].
  simpl. destruct (decide (write_key i = Some s)); [lia|].
  rewrite fmap_cons in Hin. apply elem_of_cons in Hin as [?|Hin]; [done|].
  specialize (IH Hin). lia.
Qed.

Lemma first_writer_eq (pre post : list instr) (i : instr) (d : string) :
  write_key i = Some d → Some d ∉ write_key <$> pre →
  first_writer (pre ++ i :: post) d = length pre.
Proof.
  intros Hw. induction pre as [|j pre IH]; intros Hni; simpl.
  { by rewrite decide_True. }
  rewrite fmap_cons in Hni. apply not_elem_of_cons in Hni as [Hne Hni].
  rewrite decide_False by done. by rewrite IH.
Qed.

(** In a run that succeeds, what an instruction reads was written by an
    instruction before it. *)
Lemma sequential_reads_written (pre post : list instr) (i : instr)
    (inputs final : gmap pyname Z) (r : pyname) :
  exec_bundle (pre ++ i :: post) ∅ inputs = Ok final →
  r ∈ exec_reads i → r ∈ write_key <$> pre.
Proof.
  intros Hrun Hr. rewrite exec_bundle_app in Hrun.
  destruct (exec_bundle pre ∅ inputs) as [Rpre|e] eqn:Epre; [|done].
  simpl in Hrun.
  destruct (execute_instruction i Rpre inputs) as [Ri|e] eqn:Ei; [|done].
  pose proof (execute_instruction_reads_defined _ _ _ _ _ Ei Hr) as Hdef.
  apply (exec_bundle_defined_aux _ _ _ _ r Epre) in Hdef
    as [[? Hemp]|Hin]; [by rewrite lookup_empty in Hemp|done].
Qed.

Lemma sequential_run_schedulable (prog : list instr)
    (inputs final : gmap pyname Z) :
  NoDup (write_key <$> prog) →
  (∀ i r, i ∈ prog → r ∈ exec_reads i → r ≠ None ∧ r ≠ Some "OUTPUT") →
  (∀ i r, i ∈ prog → r ∈ (get_registers i).2 →
          r ∈ exec_reads i ∨ r ∉ produced prog) →
  exec_bundle prog ∅ inputs = Ok final →
  acyclic get_registers prog ∧ fully_resolvable get_registers prog.
Proof.
  intros Hnd Hreads Hops Hseq. split.
  - exists (first_writer prog). intros i d s Hi Hw Hr Hp.
    destruct (Hops i (Some s) Hi Hr) as [Hex|?]; [|done].
    apply list_elem_of_split in Hi as (pre & post & ->).
    apply writes_write_key in Hw as [Hw _].
    rewrite (first_writer_eq pre post i d Hw).
    + apply first_writer_lt. by eapply sequential_reads_written.
    + rewrite fmap_app, fmap_cons in Hnd.
      apply NoDup_app in Hnd as (_ & Hdis & _). intros Hin.
      apply (Hdis _ Hin). rewrite Hw. left.
  - intros i r Hi Hr Hp.
    destruct (Hops i r Hi Hr) as [Hex|?]; [|done].
    destruct (Hreads i r Hi Hex) as [Hnone _].
    destruct r as [d|]; [|done].
    apply elem_of_produced in Hp as (j & Hj & Hop & Hd).
    exists j, d. split; [done|]. split; [|done].
    unfold writes, get_registers. by rewrite decide_False.
Qed.

(** X12. [run_program] computes the result of the sequential run. For a
    bundle width of at least 1 and a program whose instructions write
    pairwise distinct registers, read neither an absent operand nor
    [OUTPUT], and have no operand field, unused by the executor, that
    names a produced register: if executing the instructions in program
    order succeeds, then [run_program] terminates and returns the
    [OUTPUT] register of that run. *)
Theorem run_program_computes_sequential_result (instructions : list instr)
    (inputs final : gmap pyname Z) (bundle_size : Z) :
  0 < bundle_size →
  NoDup (write_key <$> instructions) →
  (∀ i r, i ∈ instructions → r ∈ exec_reads i →
          r ≠ None ∧ r ≠ Some "OUTPUT") →
  (∀ i r, i ∈ instructions → r ∈ (get_registers i).2 →
          r ∈ exec_reads i ∨ r ∉ produced instructions) →
  exec_bundle instructions ∅ inputs = Ok final →
  ∃ fuel : nat,
    ∀ fuel', (fuel ≤ fuel')%nat →
      run_program fuel' instructions inputs bundle_size
      = Some (Ok (final !! Some "OUTPUT")).
Proof.
  intros HW Hnd Hreads Hops Hseq.
  destruct (sequential_run_schedulable _ _ _ Hnd Hreads Hops Hseq)
    as [Hac Hres].
  destruct (schedule_with_terminates get_registers instructions bundle_size
              HW Hac Hres) as (fuel & bs & Hs).
  exists fuel. intros fuel' Hle.
  assert (schedule_instructions fuel' instructions bundle_size
          = Some (Ok bs)) as Hs' by (by eapply sched_loop_fuel_mono).
  pose proof (schedule_replays_to_final _ _ _ _ _ _ Hnd Hreads Hseq Hs')
    as Hrun.
  pose proof (sched_loop_nonempty _ _ _ _ _ _ _ _ (Forall_nil_2 _) Hs') as Hne.
  pose proof (run_bundle_loop_flatten bs inputs ∅ 0 Hne) as Hflat.
  destruct (run_bundle_loop bs inputs ∅ 0) as [[R c]|e] eqn:El;
    rewrite Hrun in Hflat; [|done].
  injection Hflat as <-.
  unfold run_program. rewrite Hs', run_program_loop_eq, El. done.
Qed.

Lemma program_operands_read :
  ∀ i r, i ∈ program → r ∈ (get_registers i).2 →
         r ∈ exec_reads i ∨ r ∉ produced program.
Proof.
  assert (Forall (λ i, Forall (λ r : pyname,
                                 r ∈ exec_reads i ∨ r ∉ produced program)
                              (get_registers i).2) program) as H.
  { repeat constructor; apply (bool_decide_unpack _); vm_compute; exact I. }
  intros i r Hi Hr. rewrite Forall_forall in H. specialize (H i Hi).
  rewrite Forall_forall in H. by apply H.
Qed.

Lemma run_program_computes_sequential_result_witness :
  ∃ fuel : nat,
    ∀ fuel', (fuel ≤ fuel')%nat →
      run_program fuel' program inputs 4
      = Some (Ok (program_final !! Some "OUTPUT")).
Proof.
  apply (run_program_computes_sequential_result program inputs
           program_final 4).
  - lia.
  - apply (bool_decide_unpack _). vm_compute. exact I.
  - exact program_reads_named.
  - exact program_operands_read.
  - vm_compute. reflexivity.
Defined.

(** ** The scheduler depends on [get_registers] at the program only *)

Section SchedulerExt.

Variables g1 g2 : instr → pyname * list pyname.

Lemma existsb_ext_in {A} (f g : A → bool) (l : list A) :
  (∀ x, x ∈ l → f x = g x) → existsb f l = existsb g l.
Proof.
  induction l as [|x l IH]; intros H; [done|]. simpl.
  rewrite (H x) by left. rewrite IH; [done|].
  intros y Hy. apply H. by right.
Qed.

Lemma external_ext (prog : list instr) :
  (∀ i, i ∈ prog → g1 i = g2 i) → external g1 prog = external g2 prog.
Proof.
  intros H. apply set_eq. intros r. rewrite !elem_of_external.
  split; intros (i & Hi & Hr & Hp); exists i; (split; [done|]);
    (split; [|done]); [by rewrite <- H|by rewrite H].
Qed.

Lemma fill_bundle_ext bundle_size reg_avail cycle snapshot cb un :
  (∀ i, i ∈ snapshot → g1 i = g2 i) →
  (∀ i, i ∈ cb → g1 i = g2 i) →
  fill_bundle g1 bundle_size reg_avail cycle snapshot cb un
  = fill_bundle g2 bundle_size reg_avail cycle snapshot cb un.
Proof.
  revert cb un. induction snapshot as [|i s IH]; intros cb un Hs Hcb; [done|].
  cbn [fill_bundle]. case_bool_decide; [done|].
  rewrite <- (Hs i) by left. destruct (g1 i) as [d srcs].
  assert (∀ j, j ∈ s → g1 j = g2 j) as Hs' by (intros j Hj; apply Hs; by right).
  destruct (existsb _ srcs); [by apply IH|].
  rewrite (existsb_ext_in (conflicts g1 d srcs) (conflicts g2 d srcs)).
  2:{ intros b Hb. unfold conflicts. by rewrite (Hcb b Hb). }
  destruct (existsb _ cb); [by apply IH|].
  destruct (py_remove i un) as [un1|e]; simpl; [|done].
  apply IH; [done|]. intros j Hj. apply elem_of_app in Hj as [Hj|Hj].
  - by apply Hcb.
  - apply list_elem_of_singleton in Hj as ->. apply Hs. left.
Qed.

Lemma update_avail_ext cycle reg_avail cb :
  (∀ i, i ∈ cb → g1 i = g2 i) →
  update_avail g1 cycle reg_avail cb = update_avail g2 cycle reg_avail cb.
Proof.
  unfold update_avail. revert reg_avail.
  induction cb as [|i cb IH]; intros ra H; [done|]. simpl.
  rewrite (H i) by left. apply IH. intros j Hj. apply H. by right.
Qed.

Lemma sched_loop_ext fuel bundle_size reg_avail un bundles cycle :
  (∀ i, i ∈ un → g1 i = g2 i) →
  sched_loop g1 fuel bundle_size reg_avail un bundles cycle
  = sched_loop g2 fuel bundle_size reg_avail un bundles cycle.
Proof.
  revert reg_avail un bundles cycle.
  induction fuel as [|fuel IH]; intros ra un bundles cycle H; [done|].
  cbn [sched_loop]. destruct un as [|i0 un0]; [done|].
  rewrite <- (fill_bundle_ext _ _ _ _ _ _ H) by (intros ? Hn; by apply elem_of_nil in Hn).
  destruct (fill_bundle g1 _ _ _ _ _ _) as [[cb un']|e] eqn:Ef; [|done].
  apply fill_bundle_sublist in Ef as (Hun & k & Hk & Hsub). simpl in Hk.
  subst k.
  assert (∀ i, i ∈ un' → g1 i = g2 i) as Hun'.
  { intros i Hi. apply H.
    eapply elem_of_submseteq; [exact Hi|by apply sublist_submseteq]. }
  destruct cb as [|c0 cb0]; [by apply IH|].
  destruct (py_max _) as [bl|e]; [|done].
  rewrite <- update_avail_ext; [by apply IH|].
  intros i Hi. apply H.
  eapply elem_of_submseteq; [exact Hi|by apply sublist_submseteq].
Qed.

Lemma schedule_with_ext fuel prog bundle_size :
  (∀ i, i ∈ prog → g1 i = g2 i) →
  schedule_with g1 fuel prog bundle_size
  = schedule_with g2 fuel prog bundle_size.
Proof.
  intros H. unfold schedule_with, schedule_ordered.
  rewrite (external_ext prog H). by apply sched_loop_ext.
Qed.

End SchedulerExt.

(** X13. On a program without STORE the schedulers of [bundle.py] and
    of [execute.py] return the same schedule (or both run for ever). *)
Theorem bundle_py_agrees_without_store (fuel : nat)
    (instructions : list instr) (bundle_size : Z) :
  (∀ i, i ∈ instructions → op i ≠ "STORE") →
  Bundle.schedule_instructions fuel instructions bundle_size
  = schedule_instructions fuel instructions bundle_size.
Proof.
  intros H. apply schedule_with_ext. intros i Hi.
  unfold Bundle.get_registers, get_registers.
  by rewrite decide_False by by apply H.
Qed.

Lemma bundle_py_agrees_without_store_witness :
  Bundle.schedule_instructions 5 program_without_store 2
  = schedule_instructions 5 program_without_store 2.
Proof.
  apply (bundle_py_agrees_without_store 5 program_without_store 2).
  intros i Hi. unfold program_without_store in Hi.
  repeat (apply elem_of_cons in Hi as [->|Hi]; [done|]).
  by apply elem_of_nil in Hi.
Defined.

(** X14. The scheduler of [bundle.py] raises nothing, whatever the
    program, the width and the fuel; and a schedule that it returns holds
    the instructions of the program, each once; none of its bundles is
    empty or longer than the width, each is in program order and free of
    hazards between the registers that [get_registers] of [bundle.py]
    reports. *)
Theorem bundle_py_schedule_sound (fuel : nat) (instructions : list instr)
    (bundle_size : Z) :
  (∀ e, Bundle.schedule_instructions fuel instructions bundle_size
        ≠ Some (Raise e))
  ∧ ∀ bs, Bundle.schedule_instructions fuel instructions bundle_size
          = Some (Ok bs) →
          flatten bs ≡ₚ instructions
          ∧ Forall (λ b : bundle,
                      b.2 ≠ [] ∧ Z.of_nat (length b.2) ≤ bundle_size
                      ∧ b.2 `sublist_of` instructions
                      ∧ hazard_free Bundle.get_registers b.2) bs.
Proof.
  split; [intros e; apply sched_loop_no_raise|]. intros bs H. split.
  - by apply sched_loop_perm in H.
  - pose proof (sched_loop_nonempty _ _ _ _ _ _ _ _ (Forall_nil_2 _) H) as H1.
    pose proof (sched_loop_bundles_ok _ _ _ _ _ _ _ _ (Forall_nil_2 _) H) as H2.
    assert (Forall (λ b : bundle, b.2 `sublist_of` instructions) bs) as H3.
    { eapply sched_loop_sublist; [| |exact H]; [done|constructor]. }
    rewrite Forall_forall in H1, H2, H3. apply Forall_forall. intros b Hb.
    destruct (H2 b Hb) as [Hlen Hhz].
    split; [by apply H1|]. split; [done|]. split; [by apply H3|done].
Qed.

Lemma bundle_py_schedule_sound_witness :
  (∀ e, Bundle.schedule_instructions 5 Bundle.program 2 ≠ Some (Raise e))
  ∧ flatten bundle_py_schedule ≡ₚ Bundle.program
  ∧ Forall (λ b : bundle,
              b.2 ≠ [] ∧ Z.of_nat (length b.2) ≤ 2
              ∧ b.2 `sublist_of` Bundle.program
              ∧ hazard_free Bundle.get_registers b.2) bundle_py_schedule.
Proof.
  destruct (bundle_py_schedule_sound 5 Bundle.program 2) as [Hraise Hsound].
  split; [exact Hraise|]. apply Hsound. vm_compute. reflexivity.
Defined.

(** ** Further properties of the latency *)

(** X15. For one kind of operation the latency grows with the size, by
    exactly one cycle for ten more units. *)
Theorem compute_latency_monotone (i j : instr) :
  op i = op j →
  (size i ≤ size j → compute_latency i ≤ compute_latency j)
  ∧ (size j = size i + 10 → compute_latency j = compute_latency i + 1).
Proof.
  intros Hop. unfold compute_latency. rewrite Hop. split.
  - intros Hle. assert (size i / 10 ≤ size j / 10); [|lia].
    by apply Z.div_le_mono.
  - intros ->. replace (size i + 10) with (size i + 1 * 10) by lia.
    rewrite Z.div_add by lia. lia.
Qed.

Lemma compute_latency_monotone_witness :
  (16 ≤ 26 →
   compute_latency (Instr "LOAD" (Some "R1") (Some "input0") None 16)
   ≤ compute_latency (Instr "LOAD" (Some "R2") (Some "input1") None 26))
  ∧ (26 = 16 + 10 →
     compute_latency (Instr "LOAD" (Some "R2") (Some "input1") None 26)
     = compute_latency (Instr "LOAD" (Some "R1") (Some "input0") None 16) + 1).
Proof.
  apply (compute_latency_monotone
           (Instr "LOAD" (Some "R1") (Some "input0") None 16)
           (Instr "LOAD" (Some "R2") (Some "input1") None 26)).
  reflexivity.
Defined.

(** ** The output of a replay *)

(** A replay that returns has executed the instructions of the schedule
    in sequence. *)
Lemma run_bundle_loop_ok (bundles : list bundle)
    (inputs registers : gmap pyname Z) (current_cycle : Z)
    (st : gmap pyname Z * Z) :
  run_bundle_loop bundles inputs registers current_cycle = Ok st →
  exec_bundle (flatten bundles) registers inputs = Ok st.1.
Proof.
  revert registers current_cycle.
  induction bundles as [|[cycle instrs] bundles IH]; intros R c H.
  { by inversion H. }
  cbn [run_bundle_loop] in H. unfold flatten. rewrite fmap_cons. simpl.
  rewrite exec_bundle_app.
  destruct (exec_bundle instrs R inputs) as [R'|e]; [|done]. simpl in H |- *.
  destruct (py_max _) as [bl|e]; [|done]. simpl in H. by eapply IH.
Qed.

(** X16. When [run_bundle] returns, its result is a value exactly when
    some executed instruction wrote [OUTPUT] (a STORE, or an instruction
    whose destination is named [OUTPUT]); otherwise it is [None]. *)
Theorem run_bundle_output_defined (bundles : list bundle)
    (inputs : gmap pyname Z) (o : option Z) :
  run_bundle bundles inputs = Ok o →
  is_Some o ↔ Some "OUTPUT" ∈ write_key <$> flatten bundles.
Proof.
  unfold run_bundle.
  destruct (run_bundle_loop bundles inputs ∅ 0) as [st|e] eqn:El; [|done].
  simpl. intros [= <-]. apply run_bundle_loop_ok in El.
  rewrite (exec_bundle_defined_aux _ _ _ _ _ El), lookup_empty.
  split; [intros [[? ?]|?]; done|by right].
Qed.

Lemma run_bundle_output_defined_witness :
  is_Some (Some 80) ↔ Some "OUTPUT" ∈ write_key <$> flatten program_schedule.
Proof.
  apply (run_bundle_output_defined program_schedule inputs (Some 80)).
  vm_compute. reflexivity.
Defined.

(** X17. The last STORE wins: after a run that succeeds, [OUTPUT] holds
    the value that the operand of a STORE had when the STORE ran,
    provided no later instruction writes [OUTPUT]. *)
Theorem last_store_wins (before after : list instr) (store : instr)
    (registers inputs mid final : gmap pyname Z) :
  op store = "STORE" →
  Some "OUTPUT" ∉ write_key <$> after →
  exec_bundle before registers inputs = Ok mid →
  exec_bundle (before ++ store :: after) registers inputs = Ok final →
  is_Some (mid !! dest store)
  ∧ final !! Some "OUTPUT" = mid !! dest store.
Proof.
  intros Hop Hafter Hmid Hrun. rewrite exec_bundle_app, Hmid in Hrun.
  simpl in Hrun. unfold execute_instruction in Hrun.
  rewrite decide_False in Hrun by (rewrite Hop; done).
  rewrite decide_True in Hrun by done. unfold getitem in Hrun.
  destruct (mid !! dest store) as [v|]; [|done]. simpl in Hrun.
  split; [by eexists|].
  rewrite (exec_bundle_frame_aux _ _ _ _ _ Hrun Hafter).
  apply lookup_insert_eq.
Qed.

Lemma last_store_wins_witness :
  is_Some ((<[Some "R1" := 3]> ∅ : gmap pyname Z) !! Some "R1")
  ∧ (<[Some "OUTPUT" := 3]> (<[Some "R1" := 3]> ∅) : gmap pyname Z)
      !! Some "OUTPUT"
    = (<[Some "R1" := 3]> ∅ : gmap pyname Z) !! Some "R1".
Proof.
  apply (last_store_wins
           [Instr "LOAD" (Some "R1") (Some "input0") None 16] []
           (Instr "STORE" (Some "R1") None None 1) ∅ inputs).
  - reflexivity.
  - apply not_elem_of_nil.
  - vm_compute. reflexivity.
  - vm_compute. reflexivity.
Defined.

(** ** Where a schedule starts *)

Section SchedulerStart.

Variable get_regs : instr → pyname * list pyname.

(** The loop only appends bundles. *)
Lemma sched_loop_prefix fuel bundle_size reg_avail un bundles cycle bs :
  sched_loop get_regs fuel bundle_size reg_avail un bundles cycle
    = Some (Ok bs) →
  ∃ rest, bs = bundles ++ rest.
Proof.
  revert reg_avail un bundles cycle.
  induction fuel as [|fuel IH]; intros ra un bundles cycle H; [done|].
  cbn [sched_loop] in H. destruct un as [|i0 un0].
  { inversion H; subst. exists []. by rewrite app_nil_r. }
  destruct (fill_bundle _ _ _ _ _ _ _) as [[cb un']|e]; [|done].
  destruct cb as [|c0 cb0]; [by eapply IH|].
  destruct (py_max _) as [bl|e]; [|done].
  destruct (IH _ _ _ _ H) as [rest ->].
  eexists. by rewrite <- app_assoc.
Qed.

(** A scan that admits nothing leaves the pool as it is. *)
Lemma fill_bundle_nothing bundle_size reg_avail cycle snapshot cb un un' :
  fill_bundle get_regs bundle_size reg_avail cycle snapshot cb un
    = Ok (cb, un') →
  un' = un.
Proof.
  revert un. induction snapshot as [|i s IH]; intros un H; simpl in H.
  { by inversion H. }
  case_bool_decide; [by inversion H|].
  destruct (get_regs i) as [d srcs].
  destruct (existsb _ srcs); [by apply IH|].
  destruct (existsb _ cb); [by apply IH|].
  destruct (py_remove i un) as [un1|e]; simpl in H; [|done].
  apply fill_bundle_prefix in H as [k Hk].
  apply (f_equal length) in Hk. rewrite !length_app in Hk. simpl in Hk. lia.
Qed.

(** The cycle counts only through the availability test. *)
Lemma fill_bundle_cycle bundle_size reg_avail (c c' : Z) snapshot cb un :
  (∀ r, not_yet reg_avail c r = not_yet reg_avail c' r) →
  fill_bundle get_regs bundle_size reg_avail c snapshot cb un
  = fill_bundle get_regs bundle_size reg_avail c' snapshot cb un.
Proof.
  intros Hc. revert cb un. induction snapshot as [|i s IH]; intros cb un; [done|].
  cbn [fill_bundle]. case_bool_decide; [done|].
  destruct (get_regs i) as [d srcs].
  rewrite (existsb_ext_in (not_yet reg_avail c) (not_yet reg_avail c'))
    by (intros; apply Hc).
  destruct (existsb _ srcs); [apply IH|].
  destruct (existsb _ cb); [apply IH|].
  destruct (py_remove i un) as [un1|e]; simpl; [apply IH|done].
Qed.

Lemma not_yet_initial reg_avail (c : Z) (r : pyname) :
  (∀ r t, reg_avail !! r = Some t → t = 0) → 0 ≤ c →
  not_yet reg_avail c r = not_yet reg_avail 0 r.
Proof.
  intros H0 Hc. unfold not_yet.
  destruct (reg_avail !! r) as [t|] eqn:E; [|done].
  rewrite (H0 r t E). by rewrite !bool_decide_eq_false_2 by lia.
Qed.

(** With the initial table, a pool from which nothing is issued at
    cycle 0 is never issued from. *)
Lemma sched_loop_never_starts fuel bundle_size reg_avail un bundles cycle :
  (∀ r t, reg_avail !! r = Some t → t = 0) → 0 ≤ cycle → un ≠ [] →
  fill_bundle get_regs bundle_size reg_avail 0 un [] un = Ok ([], un) →
  sched_loop get_regs fuel bundle_size reg_avail un bundles cycle = None.
Proof.
  intros H0 Hc Hne Hf. revert cycle Hc.
  induction fuel as [|fuel IH]; intros cycle Hc; [done|].
  cbn [sched_loop]. destruct un as [|i0 un0]; [done|].
  rewrite (fill_bundle_cycle _ _ cycle 0), Hf.
  - apply IH. lia.
  - intros r. by apply not_yet_initial.
Qed.

Lemma init_reg_avail_zero (order : list pyname) (r : pyname) (t : Z) :
  init_reg_avail order !! r = Some t → t = 0.
Proof. rewrite init_reg_avail_lookup. case_decide; by intros [= <-]. Qed.

Lemma schedule_with_first_cycle fuel prog bundle_size c b bs :
  schedule_with get_regs fuel prog bundle_size = Some (Ok ((c, b) :: bs)) →
  c = 0.
Proof.
  unfold schedule_with, schedule_ordered.
  set (ra := init_reg_avail _). intros H.
  destruct fuel as [|fuel]; [done|]. cbn [sched_loop] in H.
  destruct prog as [|i0 prog0]; [done|].
  destruct (fill_bundle _ _ _ _ _ _ _) as [[cb un']|e] eqn:Ef; [|done].
  destruct cb as [|c0 cb0].
  - pose proof (fill_bundle_nothing _ _ _ _ _ _ _ Ef) as ->.
    rewrite sched_loop_never_starts in H; [done| |lia|done|done].
    apply init_reg_avail_zero.
  - destruct (py_max _) as [bl|e]; [|done].
    apply sched_loop_prefix in H as [rest H]. simpl in H. by injection H.
Qed.

Lemma schedule_with_head_first fuel i rest bundle_size bs :
  0 < bundle_size →
  (∀ r, r ∈ (get_regs i).2 → r ∉ produced (i :: rest)) →
  schedule_with get_regs fuel (i :: rest) bundle_size = Some (Ok bs) →
  ∃ k bs', bs = (0, i :: k) :: bs'.
Proof.
  intros HW Hext. unfold schedule_with, schedule_ordered.
  set (ra := init_reg_avail _). intros H.
  destruct fuel as [|fuel]; [done|]. cbn [sched_loop fill_bundle] in H.
  rewrite bool_decide_eq_false_2 in H by (simpl; lia).
  assert (existsb (not_yet ra 0) (get_regs i).2 = false) as Hready.
  { apply not_true_iff_false. intros Hex.
    apply existsb_exists in Hex as (r & Hr & Hn).
    apply list_elem_of_In in Hr.
    unfold not_yet, ra in Hn. rewrite init_reg_avail_lookup in Hn.
    rewrite decide_True in Hn; [done|].
    apply elem_of_elements, elem_of_external.
    exists i. split; [left|]. split; [done|by apply Hext]. }
  destruct (get_regs i) as [d srcs]. simpl in Hready. rewrite Hready in H.
  simpl in H. rewrite decide_True in H by done. simpl in H.
  destruct (fill_bundle _ _ _ _ _ _ _) as [[cb un']|e] eqn:Ef; [|done].
  apply fill_bundle_prefix in Ef as [k ->].
  change ([i] ++ k) with (i :: k) in H.
  destruct (py_max _) as [bl|e]; [|done].
  apply sched_loop_prefix in H as [bs' ->]. by exists k, bs'.
Qed.

End SchedulerStart.

(** X18. A schedule that is returned and not empty starts at cycle 0:
    no stall cycle comes before the first bundle. *)
Theorem schedule_first_cycle (fuel : nat) (instructions : list instr)
    (bundle_size : Z) (c : Z) (b : list instr) (bs : list bundle) :
  schedule_instructions fuel instructions bundle_size
    = Some (Ok ((c, b) :: bs)) →
  c = 0.
Proof. apply schedule_with_first_cycle. Qed.

Lemma schedule_first_cycle_witness : 0 = 0.
Proof.
  apply (schedule_first_cycle 5 program 2 0
           [ Instr "LOAD" (Some "R1") (Some "input0") None 16;
             Instr "LOAD" (Some "R2") (Some "input1") None 16 ]
           [ (4, [ Instr "ADD" (Some "R3") (Some "R1") (Some "R2") 1;
                   Instr "LOAD" (Some "R4") (Some "input2") None 16 ]);
             (8, [ Instr "MUL" (Some "R5") (Some "R3") (Some "R4") 1 ]);
             (10, [ Instr "STORE" (Some "R5") None None 1 ]) ]).
  vm_compute. reflexivity.
Defined.

(** X19. Program order is the priority: for a bundle width of at least
    1, when the first instruction of the program reads no register that
    the program produces, it is the first instruction of the first bundle,
    issued at cycle 0. *)
Theorem schedule_head_first (fuel : nat) (i : instr) (rest : list instr)
    (bundle_size : Z) (bs : list bundle) :
  0 < bundle_size →
  (∀ r, r ∈ (get_registers i).2 → r ∉ produced (i :: rest)) →
  schedule_instructions fuel (i :: rest) bundle_size = Some (Ok bs) →
  ∃ k bs', bs = (0, i :: k) :: bs'.
Proof. apply schedule_with_head_first. Qed.

Lemma schedule_head_first_witness :
  ∃ k bs',
    program_schedule
    = (0, Instr "LOAD" (Some "R1") (Some "input0") None 16 :: k) :: bs'.
Proof.
  apply (schedule_head_first 5
           (Instr "LOAD" (Some "R1") (Some "input0") None 16)
           [ Instr "LOAD" (Some "R2") (Some "input1") None 16;
             Instr "ADD" (Some "R3") (Some "R1") (Some "R2") 1;
             Instr "LOAD" (Some "R4") (Some "input2") None 16;
             Instr "MUL" (Some "R5") (Some "R3") (Some "R4") 1;
             Instr "STORE" (Some "R5") None None 1 ] 2 program_schedule).
  - lia.
  - intros r Hr. vm_compute in Hr.
    apply list_elem_of_singleton in Hr as ->.
    apply (bool_decide_unpack _). vm_compute. exact I.
  - vm_compute. reflexivity.
Defined.

(** X20. When no instruction has a negative size, the start cycles of
    the bundles of a returned schedule strictly increase. *)
Theorem schedule_start_cycles_increase (fuel : nat)
    (instructions : list instr) (bundle_size : Z) (bs : list bundle)
    (k : nat) (b1 b2 : bundle) :
  (∀ i, i ∈ instructions → 0 ≤ size i) →
  schedule_instructions fuel instructions bundle_size = Some (Ok bs) →
  bs !! k = Some b1 → bs !! S k = Some b2 →
  b1.1 < b2.1.
Proof.
  intros Hsize H H1 H2.
  assert (completes_before b1 b2) as Hcb.
  { eapply sched_loop_no_overlap; [| |exact H|exact H1|exact H2].
    - intros ? ? ? Hnil. by rewrite lookup_nil in Hnil.
    - intros ? ? Hnil. by rewrite lookup_nil in Hnil. }
  pose proof (sched_loop_nonempty _ _ _ _ _ _ _ _ (Forall_nil_2 _) H) as Hne.
  rewrite Forall_forall in Hne.
  specialize (Hne b1 (list_elem_of_lookup_2 _ _ _ H1)).
  destruct b1 as [c1 l1]. simpl in *. destruct l1 as [|i l1]; [done|].
  specialize (Hcb i). simpl in Hcb.
  assert (i ∈ instructions) as Hi.
  { pose proof (sched_loop_perm _ _ _ _ _ _ _ _ H) as Hp. simpl in Hp.
    rewrite <- Hp. fold (flatten bs). eapply elem_of_flatten; [exact H1|left]. }
  assert (1 ≤ compute_latency i).
  { unfold compute_latency.
    pose proof (base_latencies_positive (op i)).
    pose proof (Z.div_pos (size i) 10 (Hsize i Hi)). lia. }
  assert (c1 + compute_latency i ≤ b2.1) by (apply Hcb; left). lia.
Qed.

Lemma schedule_start_cycles_increase_witness : 4 < 8.
Proof.
  apply (schedule_start_cycles_increase 5 program 2 program_schedule 1
           (4, [ Instr "ADD" (Some "R3") (Some "R1") (Some "R2") 1;
                 Instr "LOAD" (Some "R4") (Some "input2") None 16 ])
           (8, [ Instr "MUL" (Some "R5") (Some "R3") (Some "R4") 1 ])).
  - intros i Hi. unfold program in Hi.
    repeat (apply elem_of_cons in Hi as [->|Hi]; [simpl; lia|]).
    by apply elem_of_nil in Hi.
  - vm_compute. reflexivity.
  - reflexivity.
  - reflexivity.
Defined.

(** ** The failures of a run *)

(** A run that fails fails at one of its instructions. *)
Lemma exec_bundle_raise (l : list instr)
    (registers inputs : gmap pyname Z) (e : exn) :
  exec_bundle l registers inputs = Raise e →
  ∃ i R, i ∈ l ∧ execute_instruction i R inputs = Raise e.
Proof.
  revert registers. induction l as [|i l IH]; intros R H; [done|].
  simpl in H. destruct (execute_instruction i R inputs) as [R'|e'] eqn:Ei.
  - simpl in H. destruct (IH _ H) as (j & Rj & Hj & Hr).
    exists j, Rj. split; [by right|done].
  - simpl in H. injection H as ->. exists i, R. split; [left|done].
Qed.

(** The failures of one instruction: a missing key, or an undefined
    kind. *)
Lemma execute_instruction_raise (i : instr)
    (registers inputs : gmap pyname Z) (e : exn) :
  execute_instruction i registers inputs = Raise e →
  (∃ k, e = KeyError k)
  ∨ ((op i ∉ defined_kinds)
     ∧ e = ValueError ("Unknown operation: " +:+ op i)).
Proof.
  destruct (kind_cases (op i))
    as [Hop|[Hop|[Hop|[Hop|[Hop|[Hop|Hop]]]]]];
    [exec_kind i Hop; unfold getitem;
     repeat (destruct (_ !! _); simpl); try done;
     intros [= <-]; left; eauto ..|].
  rewrite execute_instruction_undefined by done. intros [= <-]. by right.
Qed.

(** X21. The only failures of [run_program] are a [KeyError] (an input
    key or a register that is missing) and the unknown operation of an
    instruction of the program whose kind is undefined: the scheduler and
    the cycle bookkeeping of the replay raise nothing. *)
Theorem run_program_failures (fuel : nat) (instructions : list instr)
    (inputs : gmap pyname Z) (bundle_size : Z) (e : exn) :
  run_program fuel instructions inputs bundle_size = Some (Raise e) →
  (∃ k, e = KeyError k)
  ∨ ∃ i, i ∈ instructions ∧ (op i ∉ defined_kinds)
         ∧ e = ValueError ("Unknown operation: " +:+ op i).
Proof.
  unfold run_program.
  destruct (schedule_instructions fuel instructions bundle_size)
    as [[bs|e']|] eqn:Hs; [|by apply sched_loop_no_raise in Hs|done].
  rewrite run_program_loop_eq.
  pose proof (sched_loop_nonempty _ _ _ _ _ _ _ _ (Forall_nil_2 _) Hs) as Hne.
  pose proof (run_bundle_loop_flatten bs inputs ∅ 0 Hne) as Hflat.
  destruct (run_bundle_loop bs inputs ∅ 0) as [[R c]|e'']; [done|].
  intros [= ->].
  apply exec_bundle_raise in Hflat as (i & R & Hi & Hr).
  apply execute_instruction_raise in Hr as [?|[Hk ->]]; [by left|].
  right. exists i. split; [|done].
  apply sched_loop_perm in Hs. simpl in Hs. by rewrite <- Hs.
Qed.

Lemma run_program_failures_witness :
  (∃ k, ValueError "Unknown operation: DIV" = KeyError k)
  ∨ ∃ i, i ∈ [undefined_div] ∧ (op i ∉ defined_kinds)
         ∧ ValueError "Unknown operation: DIV"
           = ValueError ("Unknown operation: " +:+ op i).
Proof.
  apply (run_program_failures 2 [undefined_div] inputs 2).
  vm_compute. reflexivity.
Defined.
